(** * Otoracle pipeline dashboard: manifest builder and run orchestrator

    A shallow embedding of the helper functions of [src/main.ts]
    ([slugify], [guessSourceType], [buildCitationKey], [escapeCSV]), of the
    modal's entry list ([addFiles], removal, [validate], [submit]) and of the
    promise built by [runPipelineCmd], with the properties the specification
    states about them.

    JavaScript strings are sequences of UTF-16 code units; they are modelled
    as lists of code units ([N]).  Regular expressions are written out as the
    scanning functions they denote. *)

From Stdlib Require Import NArith ZArith String Ascii Lia Bool.
From Stdlib Require DecimalString.
From stdpp Require Import base decidable option numbers list.

Local Open Scope N_scope.

(** ** JavaScript strings *)

Abbreviation jschar := N (only parsing).
Abbreviation jsstring := (list N) (only parsing).

(** A string literal of the source, as code units. *)
Definition lit (s : string) : jsstring :=
  List.map N_of_ascii (list_ascii_of_string s).

Definition c_quote : jschar := 34.
Definition c_comma : jschar := 44.
Definition c_hyphen : jschar := 45.
Definition c_newline : jschar := 10.
Definition c_underscore : jschar := 95.

Module Char.

Definition is_digit (c : jschar) : bool := (48 <=? c) && (c <=? 57).
Definition is_upper (c : jschar) : bool := (65 <=? c) && (c <=? 90).
Definition is_lower (c : jschar) : bool := (97 <=? c) && (c <=? 122).
Definition is_ascii (c : jschar) : bool := c <? 128.

(** [\w] without the unicode flag: [A-Za-z0-9_]. *)
Definition is_word (c : jschar) : bool :=
  is_upper c || is_lower c || is_digit c || (c =? c_underscore).

(** [\s], which is also the set [String.prototype.trim] strips: the
    ECMAScript WhiteSpace and LineTerminator code points. *)
Definition is_space (c : jschar) : bool :=
  ((9 <=? c) && (c <=? 13))
  || (c =? 32) || (c =? 160) || (c =? 5760)
  || ((8192 <=? c) && (c <=? 8202))
  || (c =? 8232) || (c =? 8233) || (c =? 8239) || (c =? 8287)
  || (c =? 12288) || (c =? 65279).

Definition is_hyphen (c : jschar) : bool := c =? c_hyphen.

(** The class [[^\w\s-]] of the first replacement in [slugify], negated:
    the characters that are kept. *)
Definition is_slug_kept (c : jschar) : bool :=
  is_word c || is_space c || is_hyphen c.

(** The class [[\s._-]] of the first pattern of [guessSourceType]. *)
Definition is_chapter_sep (c : jschar) : bool :=
  is_space c || (c =? 46) || (c =? c_underscore) || is_hyphen c.

(** Lower-casing of an ASCII code unit. *)
Definition lower_ascii (c : jschar) : jschar :=
  if is_upper c then c + 32 else c.

(** Case-insensitive comparison of a code unit with a pattern character
    under the [i] flag without the [u] flag: both sides are canonicalised
    by upper-casing, and a code unit outside ASCII is never canonicalised
    to an ASCII one, so a pattern letter matches exactly its two ASCII
    cases. *)
Definition canonicalize_ascii (c : jschar) : jschar :=
  if is_lower c then c - 32 else c.

Definition eq_ci (p c : jschar) : bool :=
  is_ascii c && (canonicalize_ascii c =? canonicalize_ascii p).

End Char.

Module Str.

Fixpoint drop_while (P : jschar -> bool) (s : jsstring) : jsstring :=
  match s with
  | [] => []
  | c :: r => if P c then drop_while P r else s
  end.

Fixpoint eqb (s t : jsstring) : bool :=
  match s, t with
  | [], [] => true
  | c :: s', d :: t' => (c =? d) && eqb s' t'
  | _, _ => false
  end.

(** [s.includes(c)] for a one-character needle. *)
Definition includes (c : jschar) (s : jsstring) : bool :=
  existsb (N.eqb c) s.

(** [s.endsWith(suf)]. *)
Definition endsWith (suf s : jsstring) : bool :=
  (length suf <=? length s)%nat
  && eqb (drop (length s - length suf) s) suf.

(** [s.slice(0, n)]. *)
Definition slice0 (n : nat) (s : jsstring) : jsstring := take n s.

(** [s.trim()]. *)
Definition trim (s : jsstring) : jsstring :=
  rev (drop_while Char.is_space (rev (drop_while Char.is_space s))).

(** [s.replace(/[P]/g, '')]: delete every character of the class. *)
Definition delete_all (P : jschar -> bool) (s : jsstring) : jsstring :=
  List.filter (fun c => negb (P c)) s.

(** [s.replace(/[P]+/g, rep)]: scanning left to right, every maximal run
    of characters of the class is replaced by [rep]; [inrun] tells that
    the previous character belonged to a run already replaced. *)
Fixpoint replace_runs_from (P : jschar -> bool) (rep : jsstring)
    (inrun : bool) (s : jsstring) : jsstring :=
  match s with
  | [] => []
  | c :: r =>
      if P c then
        if inrun then replace_runs_from P rep true r
        else rep ++ replace_runs_from P rep true r
      else c :: replace_runs_from P rep false r
  end.

Definition replace_runs (P : jschar -> bool) (rep s : jsstring) : jsstring :=
  replace_runs_from P rep false s.

(** [s.replace(/[P]/g, rep)]: every character of the class is replaced. *)
Definition replace_each (P : jschar -> bool) (rep s : jsstring) : jsstring :=
  flat_map (fun c => if P c then rep else [c]) s.

(** [s.split(/[P]+/)]: the pieces between the maximal runs; [cur] is the
    piece being read.  A run at either end leaves an empty piece there. *)
Fixpoint split_runs_from (P : jschar -> bool) (inrun : bool)
    (cur s : jsstring) : list jsstring :=
  match s with
  | [] => [cur]
  | c :: r =>
      if P c then
        if inrun then split_runs_from P true [] r
        else cur :: split_runs_from P true [] r
      else split_runs_from P false (cur ++ [c]) r
  end.

Definition split_runs (P : jschar -> bool) (s : jsstring) : list jsstring :=
  split_runs_from P false [] s.

(** [parts.join(sep)]. *)
Fixpoint join (sep : jsstring) (parts : list jsstring) : jsstring :=
  match parts with
  | [] => []
  | [p] => p
  | p :: ps => p ++ sep ++ join sep ps
  end.

(** Removal of a final hyphen, the [-$] alternative of [/^-|-$/g]. *)
Fixpoint drop_final_hyphen (s : jsstring) : jsstring :=
  match s with
  | [] => []
  | [c] => if Char.is_hyphen c then [] else [c]
  | c :: r => c :: drop_final_hyphen r
  end.

(** [s.replace(/^-|-$/g, '')]: one hyphen is removed at the start, if
    there is one, and one at the end of what follows. *)
Definition strip_edge_hyphens (s : jsstring) : jsstring :=
  match s with
  | c :: r => if Char.is_hyphen c then drop_final_hyphen r
              else drop_final_hyphen s
  | [] => []
  end.

(** The decimal text of an integer, as [String(n)] gives it. *)
Definition of_Z (z : Z) : jsstring :=
  lit (DecimalString.NilZero.string_of_int (Z.to_int z)).

End Str.

(** ** The helpers of [main.ts] that depend on Unicode lower-casing *)

Section Helpers.

(** [String.prototype.toLowerCase] applies the Unicode case mapping, which
    is not a table this development carries; it is a parameter, with the
    two facts about it that the properties rest on. *)
Variable toLowerCase : jsstring -> jsstring.

Definition slugify (str : jsstring) : jsstring :=
  Str.strip_edge_hyphens
    (Str.replace_runs Char.is_hyphen [c_hyphen]
      (Str.replace_runs Char.is_space [c_hyphen]
        (Str.delete_all (fun c => negb (Char.is_slug_kept c))
          (toLowerCase str)))).

Definition buildCitationKey (collectionName title : jsstring) : jsstring :=
  let bookWord :=
    slugify (match Str.split_runs Char.is_space collectionName with
             | w :: _ => w
             | [] => collectionName
             end) in
  let titleSlug := Str.slice0 60 (slugify title) in
  bookWord ++ [c_hyphen] ++ titleSlug.

End Helpers.

(** Lower-casing restricted to ASCII, which every implementation of
    [toLowerCase] agrees with on ASCII strings. *)
Definition lower_ascii_only (s : jsstring) : jsstring :=
  List.map Char.lower_ascii s.

(** ** Shape of a slug *)

(** The characters a slug is made of: [a-z0-9_-]. *)
Definition is_slug_char (c : jschar) : bool :=
  Char.is_lower c || Char.is_digit c || (c =? c_underscore) || Char.is_hyphen c.

(** No hyphen follows a hyphen; [prev] tells that the character before the
    string is a hyphen (or the start of the string, where none may stand). *)
Fixpoint hyphens_single_from (prev : bool) (s : jsstring) : bool :=
  match s with
  | [] => true
  | c :: r =>
      if Char.is_hyphen c then negb prev && hyphens_single_from true r
      else hyphens_single_from false r
  end.

(** A string is in slug form when it is made of slug characters, has no two
    adjacent hyphens and neither starts nor ends with a hyphen. *)
Definition is_slug (s : jsstring) : Prop :=
  forallb is_slug_char s = true
  /\ hyphens_single_from true s = true
  /\ last s <> Some c_hyphen.

(** ** Patterns of [guessSourceType] *)

Module Re.

(** A literal pattern matched at the start of [s] under the [i] flag;
    the result is what follows the match. *)
Fixpoint match_ci (pat s : jsstring) : option jsstring :=
  match pat, s with
  | [], _ => Some s
  | p :: pat', c :: s' => if Char.eq_ci p c then match_ci pat' s' else None
  | _ :: _, [] => None
  end.

Definition starts_with (P : jschar -> bool) (s : jsstring) : bool :=
  match s with
  | c :: _ => P c
  | [] => false
  end.

(** [[\s._-]*\d+] at the start of [s].  The separator class and the digits
    are disjoint, so the greedy star never has to give a character back. *)
Definition seps_then_digit (s : jsstring) : bool :=
  starts_with Char.is_digit (Str.drop_while Char.is_chapter_sep s).

(** [/^ch(apter)?[\s._-]*\d+/i.test(s)]: the optional group is tried
    first and skipped on failure. *)
Definition test_ch_number (s : jsstring) : bool :=
  match match_ci (lit "ch") s with
  | None => false
  | Some r =>
      match match_ci (lit "apter") r with
      | Some r' => seps_then_digit r' || seps_then_digit r
      | None => seps_then_digit r
      end
  end.

(** [/\bw\b/i] tried at the start of [s], for a pattern [w] of word
    characters: [prev_word] tells that a word character stands before. *)
Definition word_here (w : jsstring) (prev_word : bool) (s : jsstring) : bool :=
  negb prev_word
  && match match_ci w s with
     | Some r => negb (starts_with Char.is_word r)
     | None => false
     end.

(** [/\bw\b/i.test(s)]: the pattern is tried at every position. *)
Fixpoint test_word_from (w : jsstring) (prev_word : bool) (s : jsstring)
    : bool :=
  word_here w prev_word s
  || match s with
     | [] => false
     | c :: r => test_word_from w (Char.is_word c) r
     end.

Definition test_word (w s : jsstring) : bool := test_word_from w false s.

End Re.

(** ** Source types and saved collections ([settings.ts]) *)

Inductive SourceType := textbook | paper | presentation | dataset.

Definition SourceType_text (t : SourceType) : jsstring :=
  match t with
  | textbook => lit "textbook"
  | paper => lit "paper"
  | presentation => lit "presentation"
  | dataset => lit "dataset"
  end.

Module SavedCollection.
Record t := mk {
  name : jsstring;
  year : jsstring;
  authors : jsstring;
  defaultSourceType : SourceType
}.
End SavedCollection.

(** ** Helpers of [main.ts] without lower-casing *)

Definition guessSourceType (filename : jsstring) : SourceType :=
  if Re.test_ch_number filename then textbook
  else if Re.test_word (lit "chapter") filename then textbook
  else if Re.test_word (lit "section") filename then textbook
  else paper.

Definition escapeCSV (val : jsstring) : jsstring :=
  if Str.includes c_comma val || Str.includes c_quote val
     || Str.includes c_newline val
  then [c_quote]
       ++ Str.replace_each (N.eqb c_quote) [c_quote; c_quote] val
       ++ [c_quote]
  else val.

(** ** The classification rule in the specification's words *)

(** [m] spells [w] up to the case of ASCII letters. *)
Definition spells (w m : jsstring) : Prop :=
  Forall2 (fun p c => Char.eq_ci p c = true) w m.

(** The name starts with "ch" or "chapter" followed, after any separators
    (white space, dot, underscore, hyphen), by a number. *)
Definition starts_with_ch_number (s : jsstring) : Prop :=
  exists hd seps d rest,
    s = hd ++ seps ++ d :: rest
    /\ (spells (lit "ch") hd \/ spells (lit "chapter") hd)
    /\ forallb Char.is_chapter_sep seps = true
    /\ Char.is_digit d = true.

(** The name contains [w] as a word: no word character stands right before
    or right after the occurrence. *)
Definition contains_word (w s : jsstring) : Prop :=
  exists pre m post,
    s = pre ++ m ++ post
    /\ spells w m
    /\ (forall c, last pre = Some c -> Char.is_word c = false)
    /\ (forall c, head post = Some c -> Char.is_word c = false).

Definition textbook_name (s : jsstring) : Prop :=
  starts_with_ch_number s
  \/ contains_word (lit "chapter") s
  \/ contains_word (lit "section") s.

(** ** A reader for one CSV field, in the specification's words

    A standard CSV reader strips one layer of surrounding quotes from a
    quoted field and replaces each doubled quote inside it with one quote;
    a field that is not quoted is taken as it stands. *)

Fixpoint undouble_quotes (s : jsstring) : jsstring :=
  match s with
  | [] => []
  | c :: r =>
      match r with
      | d :: r' =>
          if (c =? c_quote) && (d =? c_quote)
          then c_quote :: undouble_quotes r'
          else c :: undouble_quotes r
      | [] => [c]
      end
  end.

Definition csv_read_field (s : jsstring) : jsstring :=
  match s with
  | c :: r =>
      if (c =? c_quote) && bool_decide (last r = Some c_quote)
      then undouble_quotes (removelast r)
      else s
  | [] => []
  end.

(** ** Plugin settings ([settings.ts]) *)

Record Settings := mkSettings {
  pipelineDir : jsstring;
  pythonPath : jsstring;
  autoRefreshSec : N;
  savedCollections : list SavedCollection.t
}.

Definition DEFAULT_SETTINGS : Settings :=
  {| pipelineDir := lit "/Users/gabolin/Documents/ent-pipeline";
     pythonPath := lit "/Users/gabolin/Documents/ent-pipeline/.venv/bin/python3";
     autoRefreshSec := 30;
     savedCollections := [] |}.

Definition with_savedCollections (cols : list SavedCollection.t)
    (s : Settings) : Settings :=
  {| pipelineDir := pipelineDir s;
     pythonPath := pythonPath s;
     autoRefreshSec := autoRefreshSec s;
     savedCollections := cols |}.

(** The data of the plugin as [loadData] gives it: the settings it holds,
    each of them or none. *)
Record SettingsData := mkData {
  data_pipelineDir : option jsstring;
  data_pythonPath : option jsstring;
  data_autoRefreshSec : option N;
  data_savedCollections : option (list SavedCollection.t)
}.

(** [loadSettings]: [Object.assign({}, DEFAULT_SETTINGS, data)], where
    [data] is [null] when nothing was saved.  What the data holds is taken
    as it is. *)
Definition loadSettings (data : option SettingsData) : Settings :=
  match data with
  | None => DEFAULT_SETTINGS
  | Some d =>
      {| pipelineDir :=
           default (pipelineDir DEFAULT_SETTINGS) (data_pipelineDir d);
         pythonPath :=
           default (pythonPath DEFAULT_SETTINGS) (data_pythonPath d);
         autoRefreshSec :=
           default (autoRefreshSec DEFAULT_SETTINGS) (data_autoRefreshSec d);
         savedCollections :=
           default (savedCollections DEFAULT_SETTINGS)
             (data_savedCollections d) |}
  end.

(** ** The Add-PDFs modal *)

(** A browser [File]: its name, its size in bytes and its bytes. *)
Module File.
Record t := mk {
  name : jsstring;
  size : N;
  content : list N
}.
End File.

Record FileEntry := mkEntry {
  file : File.t;
  title : jsstring;
  sourceType : SourceType
}.

(** What [writeFile] is handed: a buffer, or text to be encoded as UTF-8. *)
Inductive FileData :=
| Bytes (b : list N)
| Utf8 (text : jsstring).

(** The actions of [submit] on the outside world: [mkdir], reading a dropped
    file ([arrayBuffer]), [writeFile] and [saveSettings]. *)
Inductive Effect :=
| Mkdir (path : jsstring)
| ReadFile (f : File.t)
| WriteFile (path : jsstring) (data : FileData)
| SaveSettings (s : Settings).

Record Buttons := mkButtons {
  processDisabled : bool;
  dryRunDisabled : bool;
  processText : jsstring
}.

(** The modal, the plugin settings it shares and what it has done so far:
    the effects performed, the notices shown and the ingests started. *)
Record World := mkWorld {
  entries : list FileEntry;
  collectionInput : jsstring;
  yearInput : jsstring;
  authorsInput : jsstring;
  settings : Settings;
  buttons : Buttons;
  closed : bool;
  effects : list Effect;
  notices : list jsstring;
  ingests : list (jsstring * bool)
}.

Definition with_entries (es : list FileEntry) (w : World) : World :=
  mkWorld es (collectionInput w) (yearInput w) (authorsInput w) (settings w)
    (buttons w) (closed w) (effects w) (notices w) (ingests w).

Definition with_settings (s : Settings) (w : World) : World :=
  mkWorld (entries w) (collectionInput w) (yearInput w) (authorsInput w) s
    (buttons w) (closed w) (effects w) (notices w) (ingests w).

Definition with_buttons (b : Buttons) (w : World) : World :=
  mkWorld (entries w) (collectionInput w) (yearInput w) (authorsInput w)
    (settings w) b (closed w) (effects w) (notices w) (ingests w).

Definition with_closed (c : bool) (w : World) : World :=
  mkWorld (entries w) (collectionInput w) (yearInput w) (authorsInput w)
    (settings w) (buttons w) c (effects w) (notices w) (ingests w).

Definition with_effects (es : list Effect) (w : World) : World :=
  mkWorld (entries w) (collectionInput w) (yearInput w) (authorsInput w)
    (settings w) (buttons w) (closed w) es (notices w) (ingests w).

Definition with_notices (ns : list jsstring) (w : World) : World :=
  mkWorld (entries w) (collectionInput w) (yearInput w) (authorsInput w)
    (settings w) (buttons w) (closed w) (effects w) ns (ingests w).

Definition with_ingests (l : list (jsstring * bool)) (w : World) : World :=
  mkWorld (entries w) (collectionInput w) (yearInput w) (authorsInput w)
    (settings w) (buttons w) (closed w) (effects w) (notices w) l.

(** [new Notice(text)]. *)
Definition notice (text : jsstring) (w : World) : World :=
  with_notices (notices w ++ [text]) w.

(** *** State and exceptions

    An asynchronous method of the modal is a function of the world that
    either returns a value or throws; what is thrown is kept as the text
    [`${e}`] shows. *)

Definition M (A : Type) : Type := World -> (A + jsstring) * World.

Definition ret {A} (a : A) : M A := fun w => (inl a, w).

Definition bind {A B} (m : M A) (k : A -> M B) : M B :=
  fun w =>
    match m w with
    | (inl a, w') => k a w'
    | (inr e, w') => (inr e, w')
    end.

Definition modify (f : World -> World) : M unit := fun w => (inl tt, f w).

Definition get {A} (f : World -> A) : M A := fun w => (inl (f w), w).

Declare Scope js_scope.
Delimit Scope js_scope with js.
Notation "x <- m ;; k" := (bind m (fun x => k))
  (at level 100, m at next level, right associativity) : js_scope.
Notation "m ;;; k" := (bind m (fun _ => k))
  (at level 100, right associativity) : js_scope.

(** [array.findIndex(c => c.name === name)], then replacement at the index
    found, or [push]. *)
Definition upsert (col : SavedCollection.t)
    (existing : list SavedCollection.t) : list SavedCollection.t :=
  match list_find (fun c => SavedCollection.name c = SavedCollection.name col)
          existing with
  | Some (idx, _) => <[idx := col]> existing
  | None => existing ++ [col]
  end.

(** A value used as a condition: [null] and the empty string are falsy. *)
Definition truthy (o : option jsstring) : bool :=
  match o with
  | Some (_ :: _) => true
  | _ => false
  end.

(** ** The run orchestrator: [runPipelineCmd] *)

(** A JavaScript [Error], with its message. *)
Record JsError := mkError { message : jsstring }.

(** What the child process emits: chunks of its two streams, already decoded
    by [chunk.toString()], its ['close'] with an exit code ([null] when a
    signal ended it) and ['error']. *)
Inductive ProcEvent :=
| StdoutData (chunk : jsstring)
| StderrData (chunk : jsstring)
| Close (code : option Z)
| ProcError (err : JsError).

Inductive Promise :=
| Pending
| Resolved (value : jsstring)
| Rejected (reason : JsError).

(** The variables of the executor of the promise. *)
Record Listener := mkListener {
  stdout : jsstring;
  stderr : jsstring;
  promise : Promise
}.

(** [resolve] and [reject] settle a pending promise and do nothing on a
    settled one. *)
Definition settle (p : Promise) (l : Listener) : Listener :=
  match promise l with
  | Pending => mkListener (stdout l) (stderr l) p
  | _ => l
  end.

(** [`${code}`]. *)
Definition code_text (code : option Z) : jsstring :=
  match code with
  | Some z => Str.of_Z z
  | None => lit "null"
  end.

(** [a || b] on strings: [b] when [a] is empty. *)
Definition or_else (a b : jsstring) : jsstring :=
  match a with
  | [] => b
  | _ :: _ => a
  end.

Definition on_event (l : Listener) (ev : ProcEvent) : Listener :=
  match ev with
  | StdoutData chunk => mkListener (stdout l ++ chunk) (stderr l) (promise l)
  | StderrData chunk => mkListener (stdout l) (stderr l ++ chunk) (promise l)
  | Close code =>
      if bool_decide (code = Some 0%Z) then settle (Resolved (stdout l)) l
      else
        settle
          (Rejected
             (mkError
                (or_else (Str.trim (stderr l))
                   (lit "Process exited with code " ++ code_text code))))
          l
  | ProcError err => settle (Rejected err) l
  end.

(** What [spawn] is asked for. *)
Record SpawnRequest := mkSpawn {
  command : jsstring;
  argv : list jsstring;
  cwd : jsstring
}.

Section Orchestrator.

Variable path_join : list jsstring -> jsstring.

(** The operating system: the events of the child process spawned for a
    request, in the order they are emitted. *)
Variable spawn : SpawnRequest -> list ProcEvent.

(** The call [spawn(pythonPath, [scriptPath, ...args], { cwd })]. *)
Definition spawn_request (s : Settings) (args : list jsstring)
    : SpawnRequest :=
  let scriptPath :=
    path_join [pipelineDir s; lit "scripts"; lit "pipeline.py"] in
  mkSpawn (pythonPath s) (scriptPath :: args) (pipelineDir s).

Definition runPipelineCmd (s : Settings) (args : list jsstring) : Promise :=
  let proc := spawn (spawn_request s args) in
  promise (fold_left on_event proc (mkListener [] [] Pending)).

End Orchestrator.

(** ** The methods of the modal, and [runIngest] of the dashboard view *)

(** [`${e}`] for an [Error]: its name, then its message if it has one. *)
Definition error_text (e : JsError) : jsstring :=
  match message e with
  | [] => lit "Error"
  | _ :: _ => lit "Error: " ++ message e
  end.

Section Modal.

Variable toLowerCase : jsstring -> jsstring.

(** Node's [path.join], [path.basename] and [path.extname], which depend
    on the platform. *)
Variable path_join : list jsstring -> jsstring.
Variable path_basename : jsstring -> jsstring -> jsstring.
Variable path_extname : jsstring -> jsstring.

(** The outside world: given the effects performed so far and the one
    attempted, the text of the error it throws, if it fails. *)
Variable io_error : list Effect -> Effect -> option jsstring.

(** The operating system: the events of the child process spawned for a
    request, in the order they are emitted. *)
Variable spawn : SpawnRequest -> list ProcEvent.

(** [JSON.parse(raw)] and the read of [result.summary?.sources]: the text
    [`${e}`] of what they throw, or else what the conversions of
    [sources['published'] ?? 0] and [sources['failed'] ?? 0] to text give
    in the template: the text of what they throw, or the two texts. *)
Variable parse_sources :
  jsstring -> jsstring + (jsstring + jsstring * jsstring).

(** The dashboard drawn again by [render], which reads the runs from a
    child process of its own and builds the table in the document: the text
    of what it throws, if it throws. *)
Variable render_error : World -> option jsstring.

Definition titleFromFilename (filename : jsstring) : jsstring :=
  Str.trim (path_basename filename (path_extname filename)).

(** [e.file.name === f.name && e.file.size === f.size]. *)
Definition same_file (f : File.t) (e : FileEntry) : bool :=
  Str.eqb (File.name (file e)) (File.name f)
  && (File.size (file e) =? File.size f).

(** One turn of the loop of [addFiles]. *)
Definition addFile (es : list FileEntry) (f : File.t) : list FileEntry :=
  if negb (Str.endsWith (lit ".pdf") (toLowerCase (File.name f))) then es
  else if existsb (same_file f) es then es
  else es ++ [ {| file := f;
                  title := titleFromFilename (File.name f);
                  sourceType := guessSourceType (File.name f) |} ].

Definition addFiles (es : list FileEntry) (files : list File.t)
    : list FileEntry :=
  fold_left addFile files es.

(** The remove button of card [i]: [this.entries.splice(i, 1)]. *)
Definition removeEntry (i : nat) (es : list FileEntry) : list FileEntry :=
  delete i es.

(** The inputs of a card. *)
Definition setTitle (i : nat) (t : jsstring) (es : list FileEntry)
    : list FileEntry :=
  match es !! i with
  | Some e => <[i := {| file := file e; title := t;
                        sourceType := sourceType e |}]> es
  | None => es
  end.

Definition setSourceType (i : nat) (t : SourceType) (es : list FileEntry)
    : list FileEntry :=
  match es !! i with
  | Some e => <[i := {| file := file e; title := title e;
                        sourceType := t |}]> es
  | None => es
  end.

Fixpoint missing_title (es : list FileEntry) : option jsstring :=
  match es with
  | [] => None
  | e :: r =>
      match Str.trim (title e) with
      | [] => Some (lit "A file is missing a title ("
                    ++ File.name (file e) ++ lit ").")
      | _ :: _ => missing_title r
      end
  end.

Definition validate (w : World) : option jsstring :=
  match entries w with
  | [] => Some (lit "Add at least one PDF.")
  | _ :: _ =>
      match Str.trim (collectionInput w) with
      | [] => Some (lit "Enter a collection name.")
      | _ :: _ =>
          match Str.trim (yearInput w) with
          | [] => Some (lit "Enter a year or edition.")
          | _ :: _ => missing_title (entries w)
          end
      end
  end.

(** An effect is performed and recorded, or throws. *)
Definition perform (e : Effect) : M unit :=
  fun w =>
    match io_error (effects w) e with
    | Some err => (inr err, w)
    | None => (inl tt, with_effects (effects w ++ [e]) w)
    end.

(** Step 1 of [submit]: every file is read and written under [destDir]. *)
Fixpoint copyFiles (destDir : jsstring) (es : list FileEntry)
    : M (list jsstring) :=
  match es with
  | [] => ret []
  | e :: r =>
      let dest := path_join [destDir; File.name (file e)] in
      (perform (ReadFile (file e)) ;;;
       perform (WriteFile dest (Bytes (File.content (file e)))) ;;;
       rest <- copyFiles destDir r ;;
       ret (dest :: rest))%js
  end.

Definition manifest_header : jsstring :=
  lit "source_path,source_type,book_or_collection,chapter_or_title,edition_or_year,authors,citation_key,region,priority,notes".

Definition manifest_row (collectionName year authors : jsstring)
    (destPaths : list jsstring) (idx : nat) (entry : FileEntry) : jsstring :=
  let citationKey := buildCitationKey toLowerCase collectionName (title entry) in
  Str.join [c_comma]
    [ escapeCSV (default [] (destPaths !! idx));
      escapeCSV (SourceType_text (sourceType entry));
      escapeCSV collectionName;
      escapeCSV (title entry);
      escapeCSV year;
      escapeCSV authors;
      escapeCSV citationKey;
      lit "general";
      lit "normal";
      [] ].

(** [iso.replace(/[:.]/g, '-').slice(0, 19)]. *)
Definition manifest_stamp (iso : jsstring) : jsstring :=
  Str.slice0 19
    (Str.replace_each (fun c => (c =? 58) || (c =? 46)) [c_hyphen] iso).

(** The arguments [runIngest] hands to [runPipelineCmd]. *)
Definition ingest_args (manifestPath : jsstring) (dryRun : bool)
    : list jsstring :=
  if dryRun then [lit "dry-run"; lit "--manifest"; manifestPath]
  else [lit "ingest"; lit "--manifest"; manifestPath].

(** The notice [runIngest] shows before it starts the child process. *)
Definition ingest_start_text (dryRun : bool) : jsstring :=
  if dryRun then lit "Running dry-run" ++ [8230]
  else lit "Starting ingest" ++ [8230].

(** The [catch] block of [runIngest]. *)
Definition ingest_failed (e : jsstring) (w : World) : World :=
  notice (lit "Ingest failed: " ++ e) w.

(** The [try] block of [runIngest] with its [catch], from the promise of
    [runPipelineCmd] on.  While the promise is pending nothing more
    happens; [render] is awaited after the notice of the outcome, and what
    it throws is caught like the rest. *)
Definition ingest_outcome (dryRun : bool) (p : Promise) (w : World) : World :=
  match p with
  | Pending => w
  | Rejected e => ingest_failed (error_text e) w
  | Resolved raw =>
      match parse_sources raw with
      | inl e => ingest_failed e w
      | inr counts =>
          let shown :=
            if dryRun then
              inr (lit "Dry-run complete " ++ [8212]
                   ++ lit " no files published")
            else
              match counts with
              | inl e => inl e
              | inr (published, failed) =>
                  inr (lit "Done " ++ [8212] ++ lit " " ++ published
                       ++ lit " published, " ++ failed ++ lit " failed")
              end in
          match shown with
          | inl e => ingest_failed e w
          | inr text =>
              let w1 := notice text w in
              match render_error w1 with
              | Some e => ingest_failed e w1
              | None => w1
              end
          end
      end
  end.

(** [runIngest] of the dashboard view: the ingest is recorded when its
    child process is asked for.  It throws nothing. *)
Definition runIngest (manifestPath : jsstring) (dryRun : bool) (w : World)
    : World :=
  let args := ingest_args manifestPath dryRun in
  let w1 := notice (ingest_start_text dryRun) w in
  let w2 := with_ingests (ingests w1 ++ [(manifestPath, dryRun)]) w1 in
  ingest_outcome dryRun (runPipelineCmd path_join spawn (settings w2) args) w2.

(** The body of the [try] block of [submit]; [nowISO] is what
    [new Date().toISOString()] gives. *)
Definition prepare (nowISO : jsstring) (dryRun : bool) : M unit :=
  (collectionName <- get (fun w => Str.trim (collectionInput w)) ;;
   year <- get (fun w => Str.trim (yearInput w)) ;;
   authors <- get (fun w => Str.trim (authorsInput w)) ;;
   dir <- get (fun w => pipelineDir (settings w)) ;;
   let collectionSlug := slugify toLowerCase collectionName in
   let destDir := path_join [dir; lit "raw-pdfs"; collectionSlug] in
   perform (Mkdir destDir) ;;;
   es <- get entries ;;
   destPaths <- copyFiles destDir es ;;
   es' <- get entries ;;
   let rows := imap (manifest_row collectionName year authors destPaths) es' in
   let csvContent := Str.join [c_newline] (manifest_header :: rows) in
   let ts := manifest_stamp nowISO in
   let manifestName :=
     collectionSlug ++ [c_hyphen] ++ ts ++ lit ".manifest.csv" in
   let manifestPath :=
     path_join [dir; lit "data"; lit "manifests"; manifestName] in
   perform (Mkdir (path_join [dir; lit "data"; lit "manifests"])) ;;;
   perform (WriteFile manifestPath (Utf8 csvContent)) ;;;
   first <- get (fun w => head (entries w)) ;;
   let col :=
     {| SavedCollection.name := collectionName;
        SavedCollection.year := year;
        SavedCollection.authors := authors;
        SavedCollection.defaultSourceType :=
          match first with
          | Some e => sourceType e
          | None => textbook
          end |} in
   modify (fun w =>
     with_settings
       (with_savedCollections (upsert col (savedCollections (settings w)))
          (settings w)) w) ;;;
   s <- get settings ;;
   perform (SaveSettings s) ;;;
   modify (with_closed true) ;;;
   modify (runIngest manifestPath dryRun))%js.

(** Both buttons are disabled while the manifest is prepared. *)
Definition preparing (w : World) : World :=
  with_buttons
    {| processDisabled := true; dryRunDisabled := true;
       processText := lit "Preparing" ++ [8230] |} w.

Definition submit (nowISO : jsstring) (dryRun : bool) (w : World) : World :=
  let err := validate w in
  if truthy err then notice (default [] err) w
  else
    match prepare nowISO dryRun (preparing w) with
    | (inl _, w2) => w2
    | (inr e, w2) =>
        with_buttons
          {| processDisabled := false; dryRunDisabled := false;
             processText := lit "Process" |}
          (notice (lit "Failed to prepare ingest: " ++ e) w2)
    end.

(** Whether [submit] gets through its [try] block: [runIngest], its last
    statement, throws nothing. *)
Definition submit_succeeds (nowISO : jsstring) (dryRun : bool) (w : World)
    : bool :=
  negb (truthy (validate w))
  && match prepare nowISO dryRun (preparing w) with
     | (inl _, _) => true
     | (inr _, _) => false
     end.

End Modal.

(** *** What the user can do to the entry list *)

Inductive ModalOp :=
| AddFiles (files : list File.t)
| Remove (i : nat)
| SetTitle (i : nat) (t : jsstring)
| SetSourceType (i : nat) (t : SourceType).

(** The pair that [addFiles] compares. *)
Definition entry_key (e : FileEntry) : jsstring * N :=
  (File.name (file e), File.size (file e)).

Section ModalOps.

Variable toLowerCase : jsstring -> jsstring.
Variable path_basename : jsstring -> jsstring -> jsstring.
Variable path_extname : jsstring -> jsstring.

Definition apply_op (es : list FileEntry) (op : ModalOp) : list FileEntry :=
  match op with
  | AddFiles files => addFiles toLowerCase path_basename path_extname es files
  | Remove i => removeEntry i es
  | SetTitle i t => setTitle i t es
  | SetSourceType i t => setSourceType i t es
  end.

(** The entry list of a modal after a sequence of operations; a modal is
    opened with no entry. *)
Definition run_ops (ops : list ModalOp) : list FileEntry :=
  fold_left apply_op ops [].

(** The test of [addFiles] on the file name. *)
Definition is_pdf (f : File.t) : bool :=
  Str.endsWith (lit ".pdf") (toLowerCase (File.name f)).

End ModalOps.

(** *** The worlds reached from settings without saved collections

    A plugin without saved data starts from [DEFAULT_SETTINGS], with no
    saved collection; the settings tab and the inputs of the modal leave
    the saved collections alone; [submit] is the only method that writes
    them.  Settings loaded from saved data can hold any list. *)

Section Reachable.

Variable toLowerCase : jsstring -> jsstring.
Variable path_join : list jsstring -> jsstring.
Variable io_error : list Effect -> Effect -> option jsstring.
Variable spawn : SpawnRequest -> list ProcEvent.
Variable parse_sources :
  jsstring -> jsstring + (jsstring + jsstring * jsstring).
Variable render_error : World -> option jsstring.

Inductive reachable : World -> Prop :=
| reach_start w :
    savedCollections (settings w) = [] -> reachable w
| reach_edit w w' :
    reachable w ->
    savedCollections (settings w') = savedCollections (settings w) ->
    reachable w'
| reach_submit nowISO dryRun w :
    reachable w ->
    reachable
      (submit toLowerCase path_join io_error spawn parse_sources render_error
         nowISO dryRun w).

End Reachable.

(** The events of a child process that runs to its end: chunks, then
    ['close']. *)
Definition is_data (ev : ProcEvent) : bool :=
  match ev with
  | StdoutData _ | StderrData _ => true
  | _ => false
  end.

Definition stdout_of (evs : list ProcEvent) : jsstring :=
  flat_map (fun ev => match ev with StdoutData c => c | _ => [] end) evs.

Definition stderr_of (evs : list ProcEvent) : jsstring :=
  flat_map (fun ev => match ev with StderrData c => c | _ => [] end) evs.

(** ** Instances used in examples: ASCII lower-casing, POSIX-like paths
    without normalisation, and a world where nothing fails *)

Definition simple_join (parts : list jsstring) : jsstring :=
  Str.join [47] parts.

Definition simple_extname (p : jsstring) : jsstring :=
  if Str.endsWith (lit ".pdf") p then lit ".pdf" else [].

Definition simple_basename (p ext : jsstring) : jsstring :=
  if Str.endsWith ext p then take (length p - length ext) p else p.

Definition no_io_error (done : list Effect) (e : Effect) : option jsstring :=
  None.

(** A child process that prints an empty JSON object and exits with status
    0, the reading of that output (no [summary], so both counts are 0), and
    a dashboard that is drawn without an error. *)
Definition quiet_process (r : SpawnRequest) : list ProcEvent :=
  [StdoutData (lit "{}"); Close (Some 0%Z)].

Definition empty_summary (raw : jsstring)
    : jsstring + (jsstring + jsstring * jsstring) :=
  inr (inr (lit "0", lit "0")).

Definition render_ok (w : World) : option jsstring := None.

(** The pair of a file that [addFiles] compares with [entry_key]. *)
Definition file_key (f : File.t) : jsstring * N := (File.name f, File.size f).

(** The message of [validate] for an entry without a title. *)
Definition missing_title_text (e : FileEntry) : jsstring :=
  lit "A file is missing a title (" ++ File.name (file e) ++ lit ").".

(** The record step 4 of [submit] saves. *)
Definition new_collection (w : World) : SavedCollection.t :=
  {| SavedCollection.name := Str.trim (collectionInput w);
     SavedCollection.year := Str.trim (yearInput w);
     SavedCollection.authors := Str.trim (authorsInput w);
     SavedCollection.defaultSourceType :=
       match head (entries w) with
       | Some e => sourceType e
       | None => textbook
       end |}.

(** Two files with the same name and size and different bytes. *)
Definition twin_a : File.t := File.mk (lit "Ch. 1.PDF") 2048 [37; 80; 68; 70].
Definition twin_b : File.t := File.mk (lit "Ch. 1.PDF") 2048 [37; 80; 68; 71].

(** A child process that writes to both streams and exits with status 3. *)
Definition failing_process (r : SpawnRequest) : list ProcEvent :=
  [StdoutData (lit "partial"); StderrData (lit "  boom "); StderrData [10];
   Close (Some 3%Z)].

Abbreviation sc_name := SavedCollection.name.

(** ** A sample session: the scenario of the specification *)

Definition sample_file (name : string) : File.t :=
  File.mk (lit name) 4 [37; 80; 68; 70].

Definition sample_world : World :=
  {| entries :=
       addFiles lower_ascii_only simple_basename simple_extname []
         [sample_file "Ch. 1.pdf"; sample_file "Ch. 2.pdf";
          sample_file "notes.pdf"];
     collectionInput := lit " Gray's Anatomy ";
     yearInput := lit "2023";
     authorsInput := lit "Gray, H.";
     settings := DEFAULT_SETTINGS;
     buttons := mkButtons false false (lit "Process");
     closed := false;
     effects := [];
     notices := [];
     ingests := [] |}.

Definition sample_now : jsstring := lit "2026-03-01T10:20:30.456Z".

Definition empty_world : World := with_entries [] sample_world.

(** ** The citation key in the specification's words *)

Fixpoint take_while (P : jschar -> bool) (s : jsstring) : jsstring :=
  match s with
  | [] => []
  | c :: r => if P c then c :: take_while P r else []
  end.

Definition non_space (c : jschar) : bool := negb (Char.is_space c).

(** The first white-space-delimited token of a string. *)
Definition first_token (s : jsstring) : jsstring :=
  take_while non_space (Str.drop_while Char.is_space s).

Section CitationKeySpec.

Variable toLowerCase : jsstring -> jsstring.

(** The title is cut to 60 characters, and the cut title is slugified. *)
Definition citation_key_as_specified (collectionName title : jsstring)
    : jsstring :=
  slugify toLowerCase (first_token collectionName)
  ++ [c_hyphen] ++ slugify toLowerCase (Str.slice0 60 title).

End CitationKeySpec.

Definition long_title : jsstring :=
  lit "Chapter 12: Anatomy, Physiology and Disorders of the Human Middle Ear".

(** ** The slug in the specification's words *)



Section SlugSpec.

Variable toLowerCase : jsstring -> jsstring.


End SlugSpec.


(** What stands before an occurrence is not a word character; [prev] tells
    what stands before the string itself. *)
Definition boundary_before (prev : bool) (pre : jsstring) : Prop :=
  match last pre with
  | Some x => Char.is_word x = false
  | None => prev = false
  end.

(** ** The rest of the modal: opening it and typing a collection name *)

Definition with_inputs (collection year authors : jsstring) (w : World)
    : World :=
  mkWorld (entries w) collection year authors (settings w) (buttons w)
    (closed w) (effects w) (notices w) (ingests w).

(** A new modal ([constructor], then [onOpen]): no entry, empty inputs, both
    buttons enabled; the inputs are then filled from the last saved
    collection, [savedCollections.at(-1)], when there is one. *)
Definition openModal (w : World) : World :=
  let fresh :=
    mkWorld [] [] [] [] (settings w) (mkButtons false false (lit "Process"))
      false (effects w) (notices w) (ingests w) in
  match last (savedCollections (settings w)) with
  | Some c =>
      with_inputs (SavedCollection.name c) (SavedCollection.year c)
        (SavedCollection.authors c) fresh
  | None => fresh
  end.

(** The ['input'] listener of the collection field, once the field holds
    [value]: year and authors are taken from the saved collection whose
    name is the trimmed value, [savedCollections.find(...)], if any. *)
Definition onCollectionInput (value : jsstring) (w : World) : World :=
  match list_find (fun c => SavedCollection.name c = Str.trim value)
          (savedCollections (settings w)) with
  | Some (_, c) =>
      with_inputs value (SavedCollection.year c) (SavedCollection.authors c) w
  | None => with_inputs value (yearInput w) (authorsInput w) w
  end.

(** ** What a run of [submit] does when nothing fails *)

Section SubmitPlan.

Variable toLowerCase : jsstring -> jsstring.
Variable path_join : list jsstring -> jsstring.
Variable spawn : SpawnRequest -> list ProcEvent.
Variable parse_sources :
  jsstring -> jsstring + (jsstring + jsstring * jsstring).
Variable render_error : World -> option jsstring.

Definition collection_slug (w : World) : jsstring :=
  slugify toLowerCase (Str.trim (collectionInput w)).

Definition dest_dir (w : World) : jsstring :=
  path_join [pipelineDir (settings w); lit "raw-pdfs"; collection_slug w].

Definition dest_path (w : World) (e : FileEntry) : jsstring :=
  path_join [dest_dir w; File.name (file e)].

(** Step 1: each file is read and written, in the order of the entries. *)
Definition copy_effects (w : World) (es : list FileEntry) : list Effect :=
  flat_map
    (fun e => [ReadFile (file e);
               WriteFile (dest_path w e) (Bytes (File.content (file e)))])
    es.

(** Step 2: the header and one row per entry. *)
Definition manifest_csv (w : World) : jsstring :=
  Str.join [c_newline]
    (manifest_header
     :: imap (manifest_row toLowerCase (Str.trim (collectionInput w))
                (Str.trim (yearInput w)) (Str.trim (authorsInput w))
                (dest_path w <$> entries w))
          (entries w)).

(** Step 3: where the manifest goes. *)
Definition manifest_name (nowISO : jsstring) (w : World) : jsstring :=
  collection_slug w ++ [c_hyphen] ++ manifest_stamp nowISO
  ++ lit ".manifest.csv".

Definition manifests_dir (w : World) : jsstring :=
  path_join [pipelineDir (settings w); lit "data"; lit "manifests"].

Definition manifest_path (nowISO : jsstring) (w : World) : jsstring :=
  path_join [pipelineDir (settings w); lit "data"; lit "manifests";
             manifest_name nowISO w].

(** Step 4: the settings with the collection saved. *)
Definition saved_settings (w : World) : Settings :=
  with_savedCollections
    (upsert (new_collection w) (savedCollections (settings w))) (settings w).

(** All the effects of the [try] block, in order. *)
Definition submit_plan (nowISO : jsstring) (w : World) : list Effect :=
  [Mkdir (dest_dir w)] ++ copy_effects w (entries w)
  ++ [Mkdir (manifests_dir w);
      WriteFile (manifest_path nowISO w) (Utf8 (manifest_csv w));
      SaveSettings (saved_settings w)].

(** The world after the [try] block of [submit], when [l] are the effects
    performed and [res] the error of the refusal, if any.  After a refusal
    before [saveSettings] only the performed effects are new; a refused
    [saveSettings] also leaves the collection saved in memory; when nothing
    is refused the modal is closed and [runIngest] is run. *)
Definition after_prepare (nowISO : jsstring) (dryRun : bool) (w : World)
    (l : list Effect) (res : option jsstring) : World :=
  match res with
  | None =>
      runIngest path_join spawn parse_sources render_error
        (manifest_path nowISO w) dryRun
        (with_closed true
           (with_effects (effects w ++ l)
              (with_settings (saved_settings w) w)))
  | Some _ =>
      if bool_decide (S (length l) = length (submit_plan nowISO w))
      then with_effects (effects w ++ l) (with_settings (saved_settings w) w)
      else with_effects (effects w ++ l) w
  end.

End SubmitPlan.

(** Effects are performed one after the other until the world refuses one:
    what was performed, and the error of the refusal if there is one. *)
Fixpoint perform_all (io_error : list Effect -> Effect -> option jsstring)
    (done todo : list Effect) : list Effect * option jsstring :=
  match todo with
  | [] => ([], None)
  | e :: r =>
      match io_error done e with
      | Some err => ([], Some err)
      | None =>
          let '(l, res) := perform_all io_error (done ++ [e]) r in
          (e :: l, res)
      end
  end.

Definition is_save (e : Effect) : bool :=
  match e with
  | SaveSettings _ => true
  | _ => false
  end.

(** ** A CSV reader for a whole text

    Fields are separated by commas and records by line feeds; a field that
    starts with a quote runs to its closing quote, a doubled quote inside
    it standing for one quote. *)

Inductive CsvState :=
| FieldStart
| Unquoted
| Quoted
| QuoteSeen.

Fixpoint csv_read_from (st : CsvState) (field : jsstring)
    (row : list jsstring) (s : jsstring) : list (list jsstring) :=
  match s with
  | [] => [row ++ [field]]
  | c :: r =>
      match st with
      | Quoted =>
          if c =? c_quote then csv_read_from QuoteSeen field row r
          else csv_read_from Quoted (field ++ [c]) row r
      | _ =>
          if c =? c_comma then
            csv_read_from FieldStart [] (row ++ [field]) r
          else if c =? c_newline then
            (row ++ [field]) :: csv_read_from FieldStart [] [] r
          else if c =? c_quote then
            match st with
            | FieldStart => csv_read_from Quoted field row r
            | QuoteSeen => csv_read_from Quoted (field ++ [c]) row r
            | _ => csv_read_from Unquoted (field ++ [c]) row r
            end
          else csv_read_from Unquoted (field ++ [c]) row r
      end
  end.

Definition csv_read (s : jsstring) : list (list jsstring) :=
  csv_read_from FieldStart [] [] s.

(** A record and a text written the way [submit] writes them: every field
    through [escapeCSV], commas between fields, line feeds between
    records. *)
Definition csv_row (fields : list jsstring) : jsstring :=
  Str.join [c_comma] (escapeCSV <$> fields).

Definition csv_text (records : list (list jsstring)) : jsstring :=
  Str.join [c_newline] (csv_row <$> records).

(** The column names of the manifest. *)
Definition manifest_columns : list jsstring :=
  [lit "source_path"; lit "source_type"; lit "book_or_collection";
   lit "chapter_or_title"; lit "edition_or_year"; lit "authors";
   lit "citation_key"; lit "region"; lit "priority"; lit "notes"].

Section ManifestFields.

Variable toLowerCase : jsstring -> jsstring.
Variable path_join : list jsstring -> jsstring.

(** The ten values of the row of an entry. *)
Definition manifest_fields (w : World) (e : FileEntry) : list jsstring :=
  [dest_path toLowerCase path_join w e;
   SourceType_text (sourceType e);
   Str.trim (collectionInput w);
   title e;
   Str.trim (yearInput w);
   Str.trim (authorsInput w);
   buildCitationKey toLowerCase (Str.trim (collectionInput w)) (title e);
   lit "general";
   lit "normal";
   []].

End ManifestFields.

Definition is_csv_special (c : jschar) : bool :=
  (c =? c_comma) || (c =? c_quote) || (c =? c_newline).

(** A saved collection as [submit] makes them: name and year not empty, and
    name, year and authors without white space at either end. *)
Definition well_saved (c : SavedCollection.t) : Prop :=
  SavedCollection.name c <> []
  /\ Str.trim (SavedCollection.name c) = SavedCollection.name c
  /\ SavedCollection.year c <> []
  /\ Str.trim (SavedCollection.year c) = SavedCollection.year c
  /\ Str.trim (SavedCollection.authors c) = SavedCollection.authors c.

(** ** The refresh timer of the dashboard view *)








(** The replacement of [manifest_stamp] on one character. *)
Definition stamp_char (c : jschar) : jschar :=
  if (c =? 58) || (c =? 46) then c_hyphen else c.

(** An oracle that refuses to write the manifest. *)
Definition refuse_manifest (hist : list Effect) (e : Effect)
    : option jsstring :=
  match e with
  | WriteFile _ (Utf8 _) => Some (lit "Error: EACCES")
  | _ => None
  end.

(** The sample world with two collections saved before, the first under
    the name that is typed in the modal. *)
Definition gray_1858 : SavedCollection.t :=
  SavedCollection.mk (lit "Gray's Anatomy") (lit "1858") (lit "Gray") textbook.

Definition netter_2019 : SavedCollection.t :=
  SavedCollection.mk (lit "Netter Atlas") (lit "2019") (lit "Netter, F.")
    textbook.

Definition library_world : World :=
  with_settings (with_savedCollections [gray_1858; netter_2019] DEFAULT_SETTINGS)
    sample_world.

(** The sample world with the settings [loadSettings] makes of data in
    which two records have the name that is typed in the modal. *)
Definition gray_1901 : SavedCollection.t :=
  SavedCollection.mk (lit "Gray's Anatomy") (lit "1901") (lit "Gray; Pick")
    textbook.

Definition duplicate_data : SettingsData :=
  mkData None None None (Some [gray_1858; gray_1901]).

Definition duplicate_world : World :=
  with_settings (loadSettings (Some duplicate_data)) sample_world.

(** The sample world after its collection has been saved once. *)
Definition sample_world_again : World :=
  with_settings
    (settings (submit lower_ascii_only simple_join no_io_error quiet_process
                 empty_summary render_ok sample_now false sample_world))
    sample_world.

(* ================================================================== *)
(** * Properties *)

(** ** Character classes *)

(** Boolean class tests are turned into linear arithmetic. *)
Ltac bool_arith :=
  repeat match goal with
  | H : context [N.eqb _ _] |- _ => revert H
  | H : context [N.leb _ _] |- _ => revert H
  | H : context [N.ltb _ _] |- _ => revert H
  end;
  repeat progress
    rewrite ?orb_true_iff, ?andb_true_iff, ?orb_false_iff, ?andb_false_iff,
      ?negb_true_iff, ?negb_false_iff, ?N.leb_le, ?N.eqb_eq, ?N.ltb_lt,
      ?N.leb_gt, ?N.eqb_neq, ?N.ltb_ge;
  lia.

Ltac char_unfold :=
  unfold Char.is_slug_kept, Char.is_chapter_sep, Char.eq_ci,
    Char.canonicalize_ascii, Char.lower_ascii, Char.is_space, Char.is_word,
    Char.is_upper, Char.is_lower, Char.is_digit, Char.is_hyphen,
    Char.is_ascii, c_underscore, c_hyphen, c_quote, c_comma, c_newline in *.

Lemma is_hyphen_eq c : Char.is_hyphen c = true <-> c = c_hyphen.
Proof. unfold Char.is_hyphen. apply N.eqb_eq. Qed.

Lemma is_space_not_word c : Char.is_space c = true -> Char.is_word c = false.
Proof. char_unfold. bool_arith. Qed.

(** ** Replacement of runs *)

Lemma replace_runs_from_in P rep b s c :
  c ∈ Str.replace_runs_from P rep b s -> c ∈ rep \/ (c ∈ s /\ P c = false).
Proof.
  revert b. induction s as [|d r IH]; intros b; simpl.
  - intros H. inversion H.
  - destruct (P d) eqn:Hd.
    + destruct b.
      * intros H. destruct (IH _ H) as [?|[? ?]]; [left|right]; auto.
        split; [by right|done].
      * rewrite elem_of_app. intros [H|H]; [by left|].
        destruct (IH _ H) as [?|[? ?]]; [left|right]; auto.
        split; [by right|done].
    + rewrite elem_of_cons. intros [->|H].
      * right. split; [by left|done].
      * destruct (IH _ H) as [?|[? ?]]; [left|right]; auto.
        split; [by right|done].
Qed.

Lemma replace_runs_from_id P rep b s :
  forallb (fun c => negb (P c)) s = true ->
  Str.replace_runs_from P rep b s = s.
Proof.
  revert b. induction s as [|d r IH]; intros b; simpl; [done|].
  rewrite andb_true_iff, negb_true_iff. intros [-> Hr]. by rewrite IH.
Qed.

Lemma replace_runs_word_chars P rep b s (Q : jschar -> bool) :
  (forall c, P c = true -> Q c = false) ->
  forallb (fun c => negb (Q c)) rep = true ->
  List.filter Q (Str.replace_runs_from P rep b s) = List.filter Q s.
Proof.
  intros HPQ Hrep.
  assert (Hnil : List.filter Q rep = []).
  { clear -Hrep. induction rep as [|d r IH]; simpl in *; [done|].
    apply andb_true_iff in Hrep as [Hd Hr].
    apply negb_true_iff in Hd. rewrite Hd. auto. }
  revert b. induction s as [|d r IH]; intros b; simpl; [done|].
  destruct (P d) eqn:Hd.
  - rewrite (HPQ _ Hd). destruct b; [apply IH|].
    rewrite List.filter_app, Hnil. simpl. apply IH.
  - simpl. rewrite IH. done.
Qed.

(** ** Hyphen runs *)

Lemma hyphens_single_weaken s :
  hyphens_single_from true s = true -> hyphens_single_from false s = true.
Proof. destruct s as [|c r]; simpl; [done|]. by destruct (Char.is_hyphen c). Qed.

Lemma collapse_hyphens_single b s :
  hyphens_single_from b (Str.replace_runs_from Char.is_hyphen [c_hyphen] b s)
  = true.
Proof.
  revert b. induction s as [|c r IH]; intros b; simpl; [done|].
  destruct (Char.is_hyphen c) eqn:Hc.
  - destruct b; [apply IH|]. simpl. apply IH.
  - simpl. rewrite Hc. apply IH.
Qed.

Lemma collapse_hyphens_id b s :
  hyphens_single_from b s = true ->
  Str.replace_runs_from Char.is_hyphen [c_hyphen] b s = s.
Proof.
  revert b. induction s as [|c r IH]; intros b; simpl; [done|].
  destruct (Char.is_hyphen c) eqn:Hc.
  - rewrite andb_true_iff, negb_true_iff. intros [-> Hr].
    apply is_hyphen_eq in Hc as ->. simpl. by rewrite IH.
  - intros Hr. by rewrite IH.
Qed.

Lemma drop_final_hyphen_single b s :
  hyphens_single_from b s = true ->
  hyphens_single_from b (Str.drop_final_hyphen s) = true.
Proof.
  revert b. induction s as [|c r IH]; intros b; [done|].
  destruct r as [|d r'].
  - simpl. destruct (Char.is_hyphen c) eqn:Hc; simpl; rewrite ?Hc; done.
  - change (Str.drop_final_hyphen (c :: d :: r'))
      with (c :: Str.drop_final_hyphen (d :: r')).
    cbn [hyphens_single_from]. destruct (Char.is_hyphen c).
    + rewrite !andb_true_iff. intros [? ?]. split; [done|]. by apply IH.
    + apply IH.
Qed.

Lemma drop_final_hyphen_last b s :
  hyphens_single_from b s = true ->
  last (Str.drop_final_hyphen s) <> Some c_hyphen.
Proof.
  revert b. induction s as [|c r IH]; intros b; [done|].
  destruct r as [|d r'].
  - simpl. destruct (Char.is_hyphen c) eqn:Hc; [done|].
    simpl. intros _ [= ->]. done.
  - change (Str.drop_final_hyphen (c :: d :: r'))
      with (c :: Str.drop_final_hyphen (d :: r')).
    cbn [hyphens_single_from].
    destruct (Str.drop_final_hyphen (d :: r')) as [|e t] eqn:Hd.
    + destruct r' as [|e' t'].
      * simpl in Hd. destruct (Char.is_hyphen d) eqn:Hdh; [|done].
        simpl. destruct (Char.is_hyphen c) eqn:Hc.
        -- rewrite andb_true_iff. intros [_ ?]. done.
        -- intros _ [= ->]. done.
      * done.
    + intros H. change (last (c :: e :: t)) with (last (e :: t)).
      destruct (Char.is_hyphen c).
      * apply andb_true_iff in H as [_ H]. exact (IH true H).
      * exact (IH false H).
Qed.

Lemma drop_final_hyphen_id s :
  last s <> Some c_hyphen -> Str.drop_final_hyphen s = s.
Proof.
  induction s as [|c r IH]; [done|].
  destruct r as [|d r'].
  - simpl. destruct (Char.is_hyphen c) eqn:Hc; [|done].
    apply is_hyphen_eq in Hc as ->. done.
  - intros H. change (Str.drop_final_hyphen (c :: d :: r'))
      with (c :: Str.drop_final_hyphen (d :: r')).
    by rewrite IH.
Qed.

Lemma drop_final_hyphen_sublist s c :
  c ∈ Str.drop_final_hyphen s -> c ∈ s.
Proof.
  induction s as [|d r IH]; [done|].
  destruct r as [|e r'].
  - simpl. by destruct (Char.is_hyphen d); [inversion 1|].
  - change (Str.drop_final_hyphen (d :: e :: r'))
      with (d :: Str.drop_final_hyphen (e :: r')).
    rewrite !(elem_of_cons _ c d). intros [?|?]; [by left|right; auto].
Qed.

Lemma drop_final_hyphen_filter (Q : jschar -> bool) s :
  Q c_hyphen = false ->
  List.filter Q (Str.drop_final_hyphen s) = List.filter Q s.
Proof.
  intros HQ. induction s as [|d r IH]; [done|].
  destruct r as [|e r'].
  - simpl. destruct (Char.is_hyphen d) eqn:Hd; [|done].
    apply is_hyphen_eq in Hd as ->. by rewrite HQ.
  - change (Str.drop_final_hyphen (d :: e :: r'))
      with (d :: Str.drop_final_hyphen (e :: r')).
    cbn [List.filter]. rewrite IH. done.
Qed.


(** ** [slugify] *)

Lemma forallb_elem_of (P : jschar -> bool) (s : jsstring) :
  forallb P s = true <-> forall c, c ∈ s -> P c = true.
Proof.
  rewrite forallb_forall. split; intros H c Hc; apply H.
  - by apply list_elem_of_In.
  - by apply list_elem_of_In.
Qed.

Lemma filter_all_true (P : jschar -> bool) (s : jsstring) :
  forallb P s = true -> List.filter P s = s.
Proof.
  induction s as [|c r IH]; simpl; [done|].
  rewrite andb_true_iff. intros [-> Hr]. by rewrite IH.
Qed.

Lemma filter_elem_of (P : jschar -> bool) (s : jsstring) c :
  c ∈ List.filter P s <-> c ∈ s /\ P c = true.
Proof. rewrite !list_elem_of_In. apply filter_In. Qed.

Lemma lower_ascii_only_id s :
  forallb (fun c => negb (Char.is_upper c)) s = true ->
  lower_ascii_only s = s.
Proof.
  induction s as [|c r IH]; simpl; [done|].
  rewrite andb_true_iff, negb_true_iff. intros [Hc Hr].
  unfold Char.lower_ascii. rewrite Hc. f_equal. by apply IH.
Qed.

Lemma strip_edge_hyphens_in s c :
  c ∈ Str.strip_edge_hyphens s -> c ∈ s.
Proof.
  destruct s as [|d r]; [done|]. unfold Str.strip_edge_hyphens.
  destruct (Char.is_hyphen d); intros H%drop_final_hyphen_sublist;
    [by right|done].
Qed.

Lemma strip_edge_hyphens_single s :
  hyphens_single_from false s = true ->
  hyphens_single_from true (Str.strip_edge_hyphens s) = true
  /\ last (Str.strip_edge_hyphens s) <> Some c_hyphen.
Proof.
  destruct s as [|d r]; [done|]. unfold Str.strip_edge_hyphens.
  cbn [hyphens_single_from]. destruct (Char.is_hyphen d) eqn:Hd.
  - simpl. intros H. split.
    + by apply drop_final_hyphen_single.
    + by apply (drop_final_hyphen_last true).
  - intros H.
    assert (H' : hyphens_single_from true (d :: r) = true)
      by (simpl; by rewrite Hd).
    split.
    + by apply drop_final_hyphen_single.
    + by apply (drop_final_hyphen_last true).
Qed.

Lemma strip_edge_hyphens_id s :
  hyphens_single_from true s = true -> last s <> Some c_hyphen ->
  Str.strip_edge_hyphens s = s.
Proof.
  destruct s as [|d r]; [done|]. unfold Str.strip_edge_hyphens.
  cbn [hyphens_single_from]. destruct (Char.is_hyphen d); [done|].
  intros _ H. by apply drop_final_hyphen_id.
Qed.

Lemma strip_edge_hyphens_filter (Q : jschar -> bool) s :
  Q c_hyphen = false ->
  List.filter Q (Str.strip_edge_hyphens s) = List.filter Q s.
Proof.
  intros HQ. destruct s as [|d r]; [done|]. unfold Str.strip_edge_hyphens.
  destruct (Char.is_hyphen d) eqn:Hd.
  - apply is_hyphen_eq in Hd as ->. cbn [List.filter]. rewrite HQ.
    by apply drop_final_hyphen_filter.
  - by apply drop_final_hyphen_filter.
Qed.

(** ** Splitting and joining *)















Section SlugifyProps.

Variable toLowerCase : jsstring -> jsstring.

(** On a string of ASCII code units, lower-casing maps [A-Z] to [a-z] and
    leaves the rest. *)
Hypothesis toLowerCase_ascii :
  forall s, forallb Char.is_ascii s = true ->
            toLowerCase s = lower_ascii_only s.

(** No lower-cased string holds one of [A-Z]. *)
Hypothesis toLowerCase_no_upper :
  forall s, forallb (fun c => negb (Char.is_upper c)) (toLowerCase s) = true.

Lemma slugify_chars x c :
  c ∈ slugify toLowerCase x -> is_slug_char c = true.
Proof.
  unfold slugify, Str.replace_runs, Str.delete_all.
  intros H%strip_edge_hyphens_in.
  apply replace_runs_from_in in H as [H|[H _]].
  { apply list_elem_of_singleton in H as ->. done. }
  apply replace_runs_from_in in H as [H|[H Hsp]].
  { apply list_elem_of_singleton in H as ->. done. }
  apply filter_elem_of in H as [H Hk].
  pose proof (proj1 (forallb_elem_of _ _) (toLowerCase_no_upper x) c H) as Hu.
  revert Hk Hu Hsp. unfold is_slug_char, Char.is_slug_kept, Char.is_word.
  destruct (Char.is_upper c), (Char.is_lower c), (Char.is_digit c),
    (c =? c_underscore), (Char.is_space c), (Char.is_hyphen c); done.
Qed.

Lemma slugify_is_slug x : is_slug (slugify toLowerCase x).
Proof.
  split.
  - apply forallb_elem_of. apply slugify_chars.
  - apply strip_edge_hyphens_single. apply collapse_hyphens_single.
Qed.

Lemma slugify_fixed s : is_slug s -> slugify toLowerCase s = s.
Proof.
  intros (Hc & Hs & Hl). unfold slugify, Str.replace_runs, Str.delete_all.
  assert (Hall := proj1 (forallb_elem_of _ _) Hc).
  rewrite toLowerCase_ascii, lower_ascii_only_id.
  - rewrite filter_all_true.
    + rewrite (replace_runs_from_id Char.is_space).
      * rewrite collapse_hyphens_id by (by apply hyphens_single_weaken).
        by apply strip_edge_hyphens_id.
      * apply forallb_elem_of. intros c Hin. specialize (Hall c Hin).
        revert Hall. unfold is_slug_char. char_unfold. bool_arith.
    + apply forallb_elem_of. intros c Hin. specialize (Hall c Hin).
      revert Hall. unfold is_slug_char. char_unfold. bool_arith.
  - apply forallb_elem_of. intros c Hin. specialize (Hall c Hin).
    revert Hall. unfold is_slug_char. char_unfold. bool_arith.
  - apply forallb_elem_of. intros c Hin. specialize (Hall c Hin).
    revert Hall. unfold is_slug_char. char_unfold. bool_arith.
Qed.

Lemma slugify_word_chars x :
  List.filter Char.is_word (slugify toLowerCase x)
  = List.filter Char.is_word (toLowerCase x).
Proof.
  unfold slugify, Str.replace_runs, Str.delete_all.
  rewrite strip_edge_hyphens_filter by done.
  rewrite replace_runs_word_chars; [| |done].
  2:{ intros c Hc. apply is_hyphen_eq in Hc as ->. done. }
  rewrite replace_runs_word_chars; [| |done].
  2:{ apply is_space_not_word. }
  induction (toLowerCase x) as [|c r IH]; simpl; [done|].
  unfold Char.is_slug_kept at 1.
  destruct (Char.is_word c) eqn:Hw; simpl.
  - rewrite Hw. by rewrite IH.
  - destruct (Char.is_space c || Char.is_hyphen c); simpl;
      rewrite ?Hw; apply IH.
Qed.

(** C5.  Slugifying a slug changes nothing: for every string [x],
    [slugify (slugify x) = slugify x]. *)
Theorem slugify_idempotent (x : jsstring) :
  slugify toLowerCase (slugify toLowerCase x) = slugify toLowerCase x.
Proof. apply slugify_fixed, slugify_is_slug. Qed.



End SlugifyProps.

(** ASCII lower-casing has the two properties asked of [toLowerCase]. *)
Lemma lower_ascii_only_ascii s :
  forallb Char.is_ascii s = true -> lower_ascii_only s = lower_ascii_only s.
Proof. done. Qed.

Lemma lower_ascii_only_no_upper s :
  forallb (fun c => negb (Char.is_upper c)) (lower_ascii_only s) = true.
Proof.
  induction s as [|c r IH]; simpl; [done|].
  rewrite IH, andb_true_r. char_unfold.
  destruct ((65 <=? c) && (c <=? 90)) eqn:Hc; [|by rewrite Hc].
  revert Hc. bool_arith.
Qed.

Lemma slugify_idempotent_witness :
  slugify lower_ascii_only (slugify lower_ascii_only (lit "  Gray's -- Anatomy! "))
  = slugify lower_ascii_only (lit "  Gray's -- Anatomy! ").
Proof.
  apply (slugify_idempotent lower_ascii_only lower_ascii_only_ascii
           lower_ascii_only_no_upper).
Defined.


(** ** [guessSourceType] *)

Lemma match_ci_Some w s r :
  Re.match_ci w s = Some r <-> exists m, s = m ++ r /\ spells w m.
Proof.
  unfold spells. revert s. induction w as [|p w IH]; intros s; simpl.
  - split.
    + intros [= ->]. exists []. split; [done|constructor].
    + intros (m & -> & Hm). inversion Hm. done.
  - destruct s as [|c s'].
    + split; [done|]. intros (m & Hs & Hm). inversion Hm; subst. done.
    + destruct (Char.eq_ci p c) eqn:Hpc.
      * rewrite IH. split.
        -- intros (m & -> & Hm). exists (c :: m). split; [done|].
           by constructor.
        -- intros (m & Hs & Hm). inversion Hm; subst.
           injection Hs as -> ->. eauto.
      * split; [done|]. intros (m & Hs & Hm). inversion Hm; subst.
        injection Hs as -> ->. congruence.
Qed.

Lemma drop_while_split P s :
  exists pre, s = pre ++ Str.drop_while P s /\ forallb P pre = true.
Proof.
  induction s as [|c r (pre & Hr & Hpre)]; simpl.
  - by exists [].
  - destruct (P c) eqn:Hc.
    + exists (c :: pre). simpl. rewrite Hc, Hpre. split; [by f_equal|done].
    + by exists [].
Qed.

Lemma drop_while_app P pre c r :
  forallb P pre = true -> P c = false ->
  Str.drop_while P (pre ++ c :: r) = c :: r.
Proof.
  induction pre as [|d pre IH]; simpl.
  - by intros _ ->.
  - rewrite andb_true_iff. intros [-> Hpre] Hc. by apply IH.
Qed.

Lemma digit_not_sep d : Char.is_digit d = true -> Char.is_chapter_sep d = false.
Proof. char_unfold. bool_arith. Qed.

Lemma seps_then_digit_true s :
  Re.seps_then_digit s = true <->
  exists seps d rest,
    s = seps ++ d :: rest
    /\ forallb Char.is_chapter_sep seps = true /\ Char.is_digit d = true.
Proof.
  unfold Re.seps_then_digit. split.
  - destruct (drop_while_split Char.is_chapter_sep s) as (pre & Hs & Hpre).
    destruct (Str.drop_while Char.is_chapter_sep s) as [|d rest]; [done|].
    simpl. intros Hd. by exists pre, d, rest.
  - intros (seps & d & rest & -> & Hseps & Hd).
    rewrite drop_while_app; [done|done|]. by apply digit_not_sep.
Qed.

Lemma spells_app w1 w2 m :
  spells (w1 ++ w2) m <->
  exists m1 m2, m = m1 ++ m2 /\ spells w1 m1 /\ spells w2 m2.
Proof.
  unfold spells. split.
  - intros (m1 & m2 & H1 & H2 & ->)%Forall2_app_inv_l. eauto.
  - intros (m1 & m2 & -> & H1 & H2). by apply Forall2_app.
Qed.

Lemma test_ch_number_true s :
  Re.test_ch_number s = true <-> starts_with_ch_number s.
Proof.
  unfold Re.test_ch_number, starts_with_ch_number. split.
  - destruct (Re.match_ci (lit "ch") s) as [r|] eqn:Hch; [|done].
    apply match_ci_Some in Hch as (hd & -> & Hhd).
    assert (Hshort : Re.seps_then_digit r = true ->
      exists hd0 seps d rest, hd ++ r = hd0 ++ seps ++ d :: rest
        /\ (spells (lit "ch") hd0 \/ spells (lit "chapter") hd0)
        /\ forallb Char.is_chapter_sep seps = true
        /\ Char.is_digit d = true).
    { intros (seps & d & rest & -> & ? & ?)%seps_then_digit_true.
      exists hd, seps, d, rest. auto. }
    destruct (Re.match_ci (lit "apter") r) as [r'|] eqn:Hap; [|done].
    rewrite orb_true_iff. intros [H|H]; [|auto].
    apply match_ci_Some in Hap as (tl & -> & Htl).
    apply seps_then_digit_true in H as (seps & d & rest & -> & ? & ?).
    exists (hd ++ tl), seps, d, rest. rewrite <- !app_assoc.
    split; [done|]. split; [|done]. right.
    change (lit "chapter") with (lit "ch" ++ lit "apter").
    apply spells_app. by exists hd, tl.
  - intros (hd & seps & d & rest & -> & Hhd & Hseps & Hd).
    assert (Htail : Re.seps_then_digit (seps ++ d :: rest) = true)
      by (apply seps_then_digit_true; by exists seps, d, rest).
    destruct Hhd as [Hhd|Hhd].
    + assert (Hm : Re.match_ci (lit "ch") (hd ++ seps ++ d :: rest)
                   = Some (seps ++ d :: rest))
        by (apply match_ci_Some; by exists hd).
      rewrite Hm, Htail.
      destruct (Re.match_ci (lit "apter") _); [apply orb_true_r|done].
    + change (lit "chapter") with (lit "ch" ++ lit "apter") in Hhd.
      apply spells_app in Hhd as (m1 & m2 & -> & H1 & H2).
      rewrite <- !app_assoc.
      assert (Hm : Re.match_ci (lit "ch") (m1 ++ m2 ++ seps ++ d :: rest)
                   = Some (m2 ++ seps ++ d :: rest))
        by (apply match_ci_Some; by exists m1).
      assert (Hm' : Re.match_ci (lit "apter") (m2 ++ seps ++ d :: rest)
                   = Some (seps ++ d :: rest))
        by (apply match_ci_Some; by exists m2).
      rewrite Hm, Hm', Htail. done.
Qed.

Lemma test_word_from_true w prev s :
  Re.test_word_from w prev s = true <->
  exists pre m post,
    s = pre ++ m ++ post /\ spells w m
    /\ boundary_before prev pre
    /\ Re.starts_with Char.is_word post = false.
Proof.
  split.
  - revert prev. induction s as [|c r IH]; intros prev.
    + simpl. rewrite orb_false_r. unfold Re.word_here.
      rewrite andb_true_iff, negb_true_iff. intros [-> H].
      destruct (Re.match_ci w []) as [post|] eqn:Hm; [|done].
      apply match_ci_Some in Hm as (m & Hs & Hm).
      apply negb_true_iff in H. exists [], m, post.
      split; [done|]. split; [done|]. split; [reflexivity|done].
    + cbn [Re.test_word_from]. rewrite orb_true_iff. intros [H|H].
      * unfold Re.word_here in H.
        apply andb_true_iff in H as [->%negb_true_iff H].
        destruct (Re.match_ci w (c :: r)) as [post|] eqn:Hm; [|done].
        apply match_ci_Some in Hm as (m & Hs & Hm).
        apply negb_true_iff in H. exists [], m, post.
        split; [done|]. split; [done|]. split; [reflexivity|done].
      * apply IH in H as (pre & m & post & -> & Hm & Hb & Hp).
        exists (c :: pre), m, post. split; [done|]. split; [done|].
        split; [|done]. unfold boundary_before in *. rewrite last_cons.
        destruct (last pre); done.
  - intros (pre & m & post & -> & Hm & Hb & Hp). revert prev Hb.
    induction pre as [|c pre IH]; intros prev Hb.
    + simpl in *. unfold boundary_before in Hb. simpl in Hb. subst prev.
      assert (Hw : Re.word_here w false (m ++ post) = true).
      { unfold Re.word_here.
        assert (Hmm : Re.match_ci w (m ++ post) = Some post)
          by (apply match_ci_Some; by exists m).
        rewrite Hmm, Hp. done. }
      destruct (m ++ post); simpl; rewrite Hw; done.
    + change ((c :: pre) ++ m ++ post) with (c :: (pre ++ m ++ post)).
      cbn [Re.test_word_from]. rewrite (IH (Char.is_word c)).
      * apply orb_true_r.
      * unfold boundary_before in *. rewrite last_cons in Hb.
        destruct (last pre); done.
Qed.

Lemma test_word_true w s :
  Re.test_word w s = true <-> contains_word w s.
Proof.
  unfold Re.test_word, contains_word. rewrite test_word_from_true.
  split; intros (pre & m & post & -> & Hm & Hb & Hp);
    exists pre, m, post; (split; [done|]); (split; [done|]).
  - split.
    + intros c Hc. unfold boundary_before in Hb. by rewrite Hc in Hb.
    + intros c Hc. destruct post; simpl in *; congruence.
  - split.
    + unfold boundary_before. destruct (last pre); auto.
    + destruct post as [|c ?]; simpl; [done|].
      by apply Hp.
Qed.

(** C7.  The classifier is a function of the file name alone: a name that
    starts with "ch" or "chapter" followed by a number, or contains the
    word "chapter" or "section" in any case, is a textbook chapter; every
    other name is a paper.  In particular "Chapter 5 Intro.pdf",
    "Section 2 overview.pdf" and "Ch. 1.pdf" are textbook chapters and
    "Smith2023.pdf" is a paper. *)
Theorem guessSourceType_classifies :
  (forall name, guessSourceType name = textbook <-> textbook_name name)
  /\ (forall name, guessSourceType name = paper <-> ~ textbook_name name)
  /\ guessSourceType (lit "Chapter 5 Intro.pdf") = textbook
  /\ guessSourceType (lit "Smith2023.pdf") = paper
  /\ guessSourceType (lit "Section 2 overview.pdf") = textbook
  /\ guessSourceType (lit "Ch. 1.pdf") = textbook.
Proof.
  assert (Hiff : forall name,
    guessSourceType name = textbook <-> textbook_name name).
  { intros name. unfold guessSourceType, textbook_name.
    rewrite <- test_ch_number_true, <- !test_word_true.
    destruct (Re.test_ch_number name), (Re.test_word (lit "chapter") name),
      (Re.test_word (lit "section") name); intuition congruence. }
  split; [exact Hiff|]. split.
  - intros name. rewrite <- Hiff. unfold guessSourceType.
    destruct (Re.test_ch_number name), (Re.test_word (lit "chapter") name),
      (Re.test_word (lit "section") name); intuition congruence.
  - vm_compute. repeat split.
Qed.

(** ** [escapeCSV] *)

Lemma includes_elem_of c s : Str.includes c s = true <-> c ∈ s.
Proof.
  unfold Str.includes. rewrite existsb_exists, list_elem_of_In. split.
  - intros (x & Hx & ->%N.eqb_eq). done.
  - intros H. exists c. split; [done|apply N.eqb_refl].
Qed.

Lemma undouble_double s :
  undouble_quotes (Str.replace_each (N.eqb c_quote) [c_quote; c_quote] s) = s.
Proof.
  unfold Str.replace_each. induction s as [|c r IH]; [done|].
  cbn [flat_map]. destruct (N.eqb_spec c_quote c) as [<-|Hne].
  - cbn [app undouble_quotes]. rewrite N.eqb_refl. cbn [andb].
    by rewrite IH.
  - cbn [app]. remember (flat_map _ r) as dr eqn:Hdr.
    cbn [undouble_quotes]. destruct dr as [|d dr'].
    + simpl in IH. by rewrite <- IH.
    + destruct (N.eqb_spec c c_quote) as [->|_]; [done|].
      cbn [andb]. by rewrite IH.
Qed.

Lemma escapeCSV_quoted s :
  c_comma ∈ s \/ c_quote ∈ s \/ c_newline ∈ s ->
  escapeCSV s
  = [c_quote] ++ Str.replace_each (N.eqb c_quote) [c_quote; c_quote] s
    ++ [c_quote].
Proof.
  rewrite <- !includes_elem_of. unfold escapeCSV.
  intros [-> | [-> | ->]]; rewrite ?orb_true_r; done.
Qed.

Lemma csv_read_quoted body :
  csv_read_field ([c_quote] ++ body ++ [c_quote]) = undouble_quotes body.
Proof.
  cbn [app csv_read_field]. rewrite N.eqb_refl, last_snoc.
  rewrite bool_decide_eq_true_2 by done. cbn [andb].
  by rewrite removelast_last.
Qed.

(** C4.  A field that holds a comma, a double quote or a newline, once
    escaped and read back by a standard CSV reader, is the field again. *)
Theorem escapeCSV_roundtrip (s : jsstring) :
  c_comma ∈ s \/ c_quote ∈ s \/ c_newline ∈ s ->
  csv_read_field (escapeCSV s) = s.
Proof.
  intros H. rewrite (escapeCSV_quoted s H), csv_read_quoted.
  apply undouble_double.
Qed.

Lemma escapeCSV_roundtrip_witness :
  csv_read_field (escapeCSV [97; c_comma; c_quote; 98; c_newline])
  = [97; c_comma; c_quote; 98; c_newline].
Proof.
  apply escapeCSV_roundtrip. left. apply list_elem_of_In. simpl. auto.
Defined.

(** Fields without any of the three characters are written and read as they
    stand. *)
Lemma escapeCSV_plain_roundtrip s :
  c_comma ∉ s -> c_quote ∉ s -> c_newline ∉ s ->
  escapeCSV s = s /\ csv_read_field s = s.
Proof.
  rewrite <- !includes_elem_of. intros H1 H2 H3.
  apply not_true_is_false in H1, H2, H3. unfold escapeCSV.
  rewrite H1, H2, H3. split; [done|].
  destruct s as [|c r]; [done|]. simpl.
  destruct (N.eqb_spec c c_quote) as [->|_]; [|done].
  unfold Str.includes in H2. simpl in H2. rewrite ?N.eqb_refl in H2. done.
Qed.

(** ** [runPipelineCmd] *)

Lemma settle_settled p l : promise l <> Pending -> settle p l = l.
Proof. unfold settle. by destruct (promise l). Qed.

Lemma on_event_keeps_settled l ev :
  promise l <> Pending -> promise (on_event l ev) = promise l.
Proof.
  intros Hl. destruct ev; simpl; try done.
  - destruct (bool_decide _); by rewrite settle_settled.
  - by rewrite settle_settled.
Qed.

Lemma on_event_settled evs l :
  promise l <> Pending -> promise (fold_left on_event evs l) = promise l.
Proof.
  revert l. induction evs as [|ev evs IH]; intros l Hl; [done|].
  simpl. rewrite IH; rewrite on_event_keeps_settled; done.
Qed.

Lemma on_event_data data l :
  forallb is_data data = true ->
  fold_left on_event data l
  = mkListener (stdout l ++ stdout_of data) (stderr l ++ stderr_of data)
      (promise l).
Proof.
  revert l. induction data as [|ev data IH]; intros l Hd.
  - simpl. rewrite !app_nil_r. by destruct l.
  - simpl in Hd. apply andb_true_iff in Hd as [Hev Hd].
    simpl. rewrite IH by done.
    destruct ev; try done; simpl; by rewrite <- app_assoc.
Qed.

Lemma of_Z_examples :
  Str.of_Z 1 = lit "1" /\ Str.of_Z 127 = lit "127"
  /\ Str.of_Z (-2) = lit "-2" /\ Str.of_Z 0 = lit "0".
Proof. vm_compute. repeat split. Qed.

Section OrchestratorProps.

Variable path_join : list jsstring -> jsstring.
Variable spawn : SpawnRequest -> list ProcEvent.

Local Abbreviation request := (spawn_request path_join).

(** C1.  For every argument list: when the child process closes, the
    promise is resolved with the captured standard output exactly when
    the exit code is zero, and is otherwise rejected with an error whose
    message is the trimmed captured standard error or, when that is
    empty, "Process exited with code <code>"; when the process fails to
    spawn, the promise is rejected with the spawn error. *)
Theorem runPipelineCmd_outcome (s : Settings) (args : list jsstring)
    (data rest : list ProcEvent) :
  forallb is_data data = true ->
  (forall code,
     spawn (request s args) = data ++ Close code :: rest ->
     (code = Some 0%Z ->
        runPipelineCmd path_join spawn s args = Resolved (stdout_of data))
     /\ (code <> Some 0%Z ->
           runPipelineCmd path_join spawn s args
           = Rejected
               (mkError
                  (match Str.trim (stderr_of data) with
                   | [] => lit "Process exited with code " ++ code_text code
                   | _ :: _ => Str.trim (stderr_of data)
                   end)))
     /\ (forall out, runPipelineCmd path_join spawn s args = Resolved out
                     <-> code = Some 0%Z /\ out = stdout_of data))
  /\ (forall err,
        spawn (request s args) = data ++ ProcError err :: rest ->
        runPipelineCmd path_join spawn s args = Rejected err).
Proof.
  intros Hd.
  assert (Hrun : forall ev,
    is_data ev = false ->
    spawn (request s args) = data ++ ev :: rest ->
    runPipelineCmd path_join spawn s args
    = promise (on_event (mkListener (stdout_of data) (stderr_of data)
                           Pending) ev)).
  { intros ev Hnd Hev. unfold runPipelineCmd. cbv zeta.
    rewrite Hev, fold_left_app, (on_event_data data) by done. simpl.
    destruct ev; simpl; try done.
    - rewrite on_event_settled; [done|].
      destruct (bool_decide _); done.
    - by rewrite on_event_settled. }
  split.
  - intros code Hev. rewrite (Hrun (Close code) eq_refl Hev). simpl.
    destruct (bool_decide (code = Some 0%Z)) eqn:Hc.
    + apply bool_decide_eq_true in Hc. simpl. split; [done|].
      split; [done|]. intros out. split.
      * intros [= <-]. done.
      * intros [_ ->]. done.
    + apply bool_decide_eq_false in Hc. simpl. split; [done|]. split.
      * intros _. unfold or_else. by destruct (Str.trim (stderr_of data)).
      * intros out. split; [done|]. intros [? _]. done.
  - intros err Hev. by rewrite (Hrun (ProcError err) eq_refl Hev).
Qed.

End OrchestratorProps.

Lemma runPipelineCmd_outcome_witness :
  runPipelineCmd simple_join failing_process DEFAULT_SETTINGS [lit "status"]
  = Rejected (mkError (lit "boom")).
Proof.
  pose proof (runPipelineCmd_outcome simple_join failing_process
                DEFAULT_SETTINGS [lit "status"]
                [StdoutData (lit "partial"); StderrData (lit "  boom ");
                 StderrData [10]] [] eq_refl) as [H _].
  destruct (H (Some 3%Z) eq_refl) as (_ & Hrej & _).
  rewrite Hrej; [reflexivity|discriminate].
Defined.

(** ** The entry list: [addFiles] and removal *)

Lemma Str_eqb_eq s t : Str.eqb s t = true <-> s = t.
Proof.
  revert t. induction s as [|c s IH]; intros [|d t]; simpl; try done.
  rewrite andb_true_iff, N.eqb_eq, IH. split.
  - by intros [-> ->].
  - by intros [= -> ->].
Qed.

Section EntryList.

Variable toLowerCase : jsstring -> jsstring.
Variable path_basename : jsstring -> jsstring -> jsstring.
Variable path_extname : jsstring -> jsstring.

Local Abbreviation addFile_ :=
  (addFile toLowerCase path_basename path_extname).
Local Abbreviation addFiles_ :=
  (addFiles toLowerCase path_basename path_extname).
Local Abbreviation is_pdf_ := (is_pdf toLowerCase).
Local Abbreviation apply_op_ :=
  (apply_op toLowerCase path_basename path_extname).
Local Abbreviation run_ops_ :=
  (run_ops toLowerCase path_basename path_extname).

Lemma same_file_key f e :
  same_file f e = true <-> entry_key e = file_key f.
Proof.
  unfold same_file, entry_key, file_key.
  rewrite andb_true_iff, Str_eqb_eq, N.eqb_eq. split.
  - by intros [-> ->].
  - by intros [= -> ->].
Qed.

Lemma known_file_key f es :
  existsb (same_file f) es = true <-> file_key f ∈ entry_key <$> es.
Proof.
  rewrite existsb_exists, list_elem_of_fmap. split.
  - intros (e & He%list_elem_of_In & Hk%same_file_key). eauto.
  - intros (e & Hk & He%list_elem_of_In). exists e.
    split; [done|]. by apply same_file_key.
Qed.

(** One turn of the loop either leaves the list alone or appends one
    entry, for a PDF whose name and size are not in the list yet. *)
Lemma addFile_cases es f :
  (addFile_ es f = es
   /\ (is_pdf_ f = false \/ file_key f ∈ entry_key <$> es))
  \/ (exists e, addFile_ es f = es ++ [e] /\ file e = f
                /\ is_pdf_ f = true /\ file_key f ∉ entry_key <$> es).
Proof.
  unfold addFile, is_pdf.
  destruct (Str.endsWith _ _) eqn:Hpdf; simpl; [|left; auto].
  destruct (existsb (same_file f) es) eqn:Hk.
  - left. split; [done|]. right. by apply known_file_key.
  - right. eexists. split; [done|]. split; [done|]. split; [done|].
    intros Hin%known_file_key. congruence.
Qed.

Lemma addFile_NoDup es f :
  NoDup (entry_key <$> es) -> NoDup (entry_key <$> addFile_ es f).
Proof.
  intros Hnd. destruct (addFile_cases es f) as [[-> _]|(e & -> & He & _ & Hk)];
    [done|].
  rewrite fmap_app. apply NoDup_app. split; [done|]. split.
  - intros k Hin [->|[]%elem_of_nil]%elem_of_cons. apply Hk.
    unfold entry_key in Hin. by rewrite He in Hin.
  - apply NoDup_singleton.
Qed.

Lemma addFiles_NoDup es files :
  NoDup (entry_key <$> es) -> NoDup (entry_key <$> addFiles_ es files).
Proof.
  unfold addFiles. revert es.
  induction files as [|f files IH]; intros es Hnd; [done|].
  simpl. by apply IH, addFile_NoDup.
Qed.

Lemma apply_op_NoDup es op :
  NoDup (entry_key <$> es) -> NoDup (entry_key <$> apply_op_ es op).
Proof.
  intros Hnd. destruct op as [files|i|i t|i t]; simpl.
  - by apply addFiles_NoDup.
  - unfold removeEntry. rewrite list_fmap_delete.
    exact (sublist_NoDup _ _ Hnd (sublist_delete _ i)).
  - unfold setTitle. destruct (es !! i) as [e|] eqn:He; [|done].
    rewrite list_fmap_insert, list_insert_id; [done|].
    by rewrite list_lookup_fmap, He.
  - unfold setSourceType. destruct (es !! i) as [e|] eqn:He; [|done].
    rewrite list_fmap_insert, list_insert_id; [done|].
    by rewrite list_lookup_fmap, He.
Qed.

Lemma fold_ops_NoDup ops es :
  NoDup (entry_key <$> es) ->
  NoDup (entry_key <$> fold_left apply_op_ ops es).
Proof.
  revert es. induction ops as [|op ops IH]; intros es Hnd; [done|].
  simpl. by apply IH, apply_op_NoDup.
Qed.

(** C8.  The entry list never holds two entries whose files have the same
    name and the same size: whatever files are added, removed or edited,
    starting from the empty list of a new modal, the (name, size) pairs of
    the entries are pairwise distinct; every operation keeps them so; and
    two PDF files with the same name and size, added to an empty list,
    give exactly one entry. *)
Theorem entries_unique :
  (forall ops, NoDup (entry_key <$> run_ops_ ops))
  /\ (forall es op, NoDup (entry_key <$> es) ->
                    NoDup (entry_key <$> apply_op_ es op))
  /\ (forall es files e1 e2 i j,
        NoDup (entry_key <$> es) ->
        addFiles_ es files !! i = Some e1 ->
        addFiles_ es files !! j = Some e2 ->
        entry_key e1 = entry_key e2 -> i = j)
  /\ (forall f1 f2,
        File.name f1 = File.name f2 -> File.size f1 = File.size f2 ->
        is_pdf_ f1 = true ->
        exists e, addFiles_ [] [f1; f2] = [e] /\ file e = f1).
Proof.
  split; [|split; [|split]].
  - intros ops. apply fold_ops_NoDup. constructor.
  - apply apply_op_NoDup.
  - intros es files e1 e2 i j Hnd H1 H2 Hk.
    apply (NoDup_lookup (entry_key <$> addFiles_ es files) i j (entry_key e1)).
    + by apply addFiles_NoDup.
    + by rewrite list_lookup_fmap, H1.
    + by rewrite list_lookup_fmap, H2, Hk.
  - intros f1 f2 Hname Hsize Hpdf. unfold addFiles. simpl.
    destruct (addFile_cases [] f1) as [[_ [H|H]]|(e & He & Hf & _ & _)].
    + unfold is_pdf in *. congruence.
    + by apply elem_of_nil in H.
    + rewrite He. simpl.
      destruct (addFile_cases [e] f2) as [[-> _]|(e' & _ & _ & _ & Hk)].
      * eauto.
      * exfalso. apply Hk. simpl. apply list_elem_of_singleton.
        unfold entry_key, file_key. by rewrite Hf, Hname, Hsize.
Qed.

Lemma addFile_non_pdf es f : is_pdf_ f = false -> addFile_ es f = es.
Proof.
  unfold addFile, is_pdf. by intros ->.
Qed.

Lemma addFiles_app es fs1 fs2 :
  addFiles_ es (fs1 ++ fs2) = addFiles_ (addFiles_ es fs1) fs2.
Proof. apply fold_left_app. Qed.

(** C10.  [addFiles_] appends entries only for files whose lower-cased
    name ends with ".pdf": the other files of the list are ignored, what
    is appended comes from PDF files of the list, in their order, and a
    list without any PDF leaves the entries as they are. *)
Theorem addFiles_only_pdfs (es : list FileEntry) (files : list File.t) :
  addFiles_ es files = addFiles_ es (List.filter is_pdf_ files)
  /\ (exists added,
        addFiles_ es files = es ++ added
        /\ sublist (file <$> added) (List.filter is_pdf_ files))
  /\ (forall f, is_pdf_ f = false -> addFiles_ es [f] = es)
  /\ (forallb (fun f => negb (is_pdf_ f)) files = true ->
      addFiles_ es files = es).
Proof.
  split; [|split; [|split]].
  - unfold addFiles. revert es.
    induction files as [|f files IH]; intros es; [done|].
    simpl. destruct (is_pdf_ f) eqn:Hf.
    + simpl. apply IH.
    + rewrite addFile_non_pdf by done. apply IH.
  - unfold addFiles. revert es.
    induction files as [|f files IH]; intros es.
    + exists []. simpl. by rewrite app_nil_r.
    + simpl. destruct (addFile_cases es f)
        as [[-> _]|(e & -> & He & Hf & _)].
      * destruct (IH es) as (added & -> & Hsub). exists added.
        split; [done|]. destruct (is_pdf_ f);
          [by apply sublist_cons|done].
      * destruct (IH (es ++ [e])) as (added & -> & Hsub).
        exists (e :: added). rewrite <- app_assoc. split; [done|].
        rewrite Hf. simpl. rewrite He. by apply sublist_skip.
  - intros f Hf. unfold addFiles. simpl.
    by apply addFile_non_pdf.
  - unfold addFiles. revert es.
    induction files as [|f files IH]; intros es; [done|].
    simpl. rewrite andb_true_iff, negb_true_iff. intros [Hf Hr].
    rewrite addFile_non_pdf by done. by apply IH.
Qed.

End EntryList.

Lemma entries_unique_witness :
  exists e,
    addFiles lower_ascii_only simple_basename simple_extname []
      [twin_a; twin_b] = [e]
    /\ file e = twin_a.
Proof.
  apply (entries_unique lower_ascii_only simple_basename simple_extname);
    reflexivity.
Defined.

(** ** Saved collections: [upsert] *)

Lemma upsert_found col l idx c :
  list_find (fun c => sc_name c = sc_name col) l = Some (idx, c) ->
  upsert col l = <[idx := col]> l /\ l !! idx = Some c
  /\ sc_name c = sc_name col.
Proof.
  intros H. unfold upsert. rewrite H.
  apply list_find_Some in H as (? & ? & _). done.
Qed.

Lemma upsert_append col l :
  (forall c, c ∈ l -> sc_name c <> sc_name col) ->
  upsert col l = l ++ [col].
Proof.
  intros H. unfold upsert.
  destruct (list_find _ l) as [[idx c]|] eqn:Hf; [|done].
  apply list_find_Some in Hf as (Hl & Hn & _).
  exfalso. eapply H; [|exact Hn]. by eapply list_elem_of_lookup_2.
Qed.

Lemma upsert_names col l :
  (sc_name <$> upsert col l) = (sc_name <$> l)
  \/ ((sc_name col ∉ sc_name <$> l)
      /\ (sc_name <$> upsert col l) = (sc_name <$> l) ++ [sc_name col]).
Proof.
  unfold upsert. destruct (list_find _ l) as [[idx c]|] eqn:Hf.
  - left. apply list_find_Some in Hf as (Hl & Hn & _).
    rewrite list_fmap_insert, list_insert_id; [done|].
    by rewrite list_lookup_fmap, Hl, <- Hn.
  - right. split.
    + apply list_find_None in Hf. rewrite Forall_forall in Hf.
      intros (c & Hc & Hin)%list_elem_of_fmap. by apply (Hf c).
    + by rewrite fmap_app.
Qed.

Lemma upsert_NoDup col l :
  NoDup (sc_name <$> l) -> NoDup (sc_name <$> upsert col l).
Proof.
  intros Hnd. destruct (upsert_names col l) as [->|[Hnew ->]]; [done|].
  apply NoDup_app. split; [done|]. split; [|apply NoDup_singleton].
  intros x Hx ->%list_elem_of_singleton. done.
Qed.

Lemma upsert_length col l :
  (length l <= length (upsert col l) <= S (length l))%nat.
Proof.
  unfold upsert. destruct (list_find _ l) as [[idx c]|].
  - rewrite length_insert. lia.
  - rewrite length_app. simpl. lia.
Qed.

Lemma upsert_holds col l : exists i, upsert col l !! i = Some col.
Proof.
  unfold upsert. destruct (list_find _ l) as [[idx c]|] eqn:Hf.
  - apply list_find_Some in Hf as (Hl & _ & _). exists idx.
    apply list_lookup_insert_eq. by eapply lookup_lt_Some.
  - exists (length l). by rewrite lookup_app_r, Nat.sub_diag.
Qed.

Lemma upsert_other col l i c :
  l !! i = Some c -> sc_name c <> sc_name col -> upsert col l !! i = Some c.
Proof.
  intros Hl Hn. unfold upsert.
  destruct (list_find _ l) as [[idx c']|] eqn:Hf.
  - apply list_find_Some in Hf as (Hl' & Hn' & _).
    rewrite list_lookup_insert_ne; [done|]. intros ->. congruence.
  - rewrite lookup_app_l; [done|]. by eapply lookup_lt_Some.
Qed.

Lemma upsert_replaces col l i c :
  NoDup (sc_name <$> l) ->
  l !! i = Some c -> sc_name c = sc_name col ->
  upsert col l = <[i := col]> l.
Proof.
  intros Hnd Hl Hn. unfold upsert.
  destruct (list_find _ l) as [[idx c']|] eqn:Hf.
  - apply list_find_Some in Hf as (Hl' & Hn' & _).
    assert (idx = i) as ->; [|done].
    apply (NoDup_lookup (sc_name <$> l) idx i (sc_name col)); [done|..].
    + by rewrite list_lookup_fmap, Hl', <- Hn'.
    + by rewrite list_lookup_fmap, Hl, <- Hn.
  - apply list_find_None in Hf. rewrite Forall_forall in Hf.
    exfalso. apply (Hf c); [|done]. by eapply list_elem_of_lookup_2.
Qed.

(** Without an assumption on the names: the first record of the name is
    the one replaced, and the records of the name are as many as before,
    or one if there was none. *)
Lemma upsert_first col l i c :
  l !! i = Some c -> sc_name c = sc_name col ->
  (forall j c', (j < i)%nat -> l !! j = Some c' -> sc_name c' <> sc_name col) ->
  upsert col l = <[i := col]> l.
Proof.
  intros Hl Hn Hfirst. unfold upsert.
  destruct (list_find _ l) as [[idx c']|] eqn:Hf.
  - apply list_find_Some in Hf as (Hl' & Hn' & Hbefore).
    assert (idx = i) as ->; [|done].
    destruct (Nat.lt_trichotomy idx i) as [Hlt|[->|Hlt]]; [|done|].
    + exfalso. by apply (Hfirst idx c').
    + exfalso. by apply (Hbefore i c).
  - apply list_find_None in Hf. rewrite Forall_forall in Hf.
    exfalso. apply (Hf c); [|done]. by eapply list_elem_of_lookup_2.
Qed.

Lemma filter_insert_length (P : SavedCollection.t -> Prop)
    `{forall c, Decision (P c)} l i x y :
  l !! i = Some x -> P x -> P y ->
  length (filter P (<[i := y]> l)) = length (filter P l).
Proof.
  intros Hl Hx Hy.
  rewrite insert_take_drop by (by eapply lookup_lt_Some).
  rewrite <- (take_drop_middle l i x Hl) at 3.
  rewrite !filter_app, !filter_cons_True by done.
  by rewrite !length_app.
Qed.

Lemma upsert_count col l :
  length (filter (fun c => sc_name c = sc_name col) (upsert col l))
  = Nat.max 1 (length (filter (fun c => sc_name c = sc_name col) l)).
Proof.
  unfold upsert. destruct (list_find _ l) as [[idx c]|] eqn:Hf.
  - apply list_find_Some in Hf as (Hl & Hn & _).
    rewrite (filter_insert_length _ l idx c col) by done.
    assert (c ∈ filter (fun c => sc_name c = sc_name col) l) as Hin.
    { apply list_elem_of_filter. split; [done|].
      by eapply list_elem_of_lookup_2. }
    destruct (filter _ l); [by apply elem_of_nil in Hin|]. simpl. lia.
  - apply list_find_None in Hf.
    rewrite filter_app, filter_cons_True, filter_nil by done.
    assert (filter (fun c => sc_name c = sc_name col) l = []) as ->; [|done].
    induction Hf as [|c l Hc _ IH]; [done|]. by rewrite filter_cons_False.
Qed.

Lemma filter_at_most_one (P : SavedCollection.t -> Prop)
    `{forall c, Decision (P c)} l i j a b :
  (length (filter P l) <= 1)%nat ->
  l !! i = Some a -> l !! j = Some b -> P a -> P b -> i = j.
Proof.
  revert i j. induction l as [|x l IH]; intros i j Hlen Hi Hj Ha Hb; [done|].
  assert (Hnone : P x -> forall k y, l !! k = Some y -> P y -> False).
  { intros Hx k y Hk Hy. rewrite filter_cons_True in Hlen by done.
    assert (y ∈ filter P l) as Hin.
    { apply list_elem_of_filter. split; [done|].
      by eapply list_elem_of_lookup_2. }
    destruct (filter P l); [by apply elem_of_nil in Hin|]. simpl in Hlen. lia. }
  destruct i as [|i], j as [|j]; simpl in Hi, Hj.
  - done.
  - injection Hi as ->. exfalso. by eapply Hnone.
  - injection Hj as ->. exfalso. by eapply Hnone.
  - f_equal. apply IH; try done.
    destruct (decide (P x)).
    + rewrite filter_cons_True in Hlen by done. simpl in Hlen. lia.
    + by rewrite filter_cons_False in Hlen.
Qed.

Lemma NoDup_names_at_most_one n l :
  NoDup (sc_name <$> l) ->
  (length (filter (fun c => sc_name c = n) l) <= 1)%nat.
Proof.
  induction l as [|x l IH]; [simpl; lia|].
  rewrite fmap_cons, NoDup_cons. intros [Hx Hnd].
  destruct (decide (sc_name x = n)) as [Hn|Hn].
  - rewrite filter_cons_True by done.
    assert (filter (fun c => sc_name c = n) l = []) as ->; [|done].
    destruct (filter _ l) as [|y r] eqn:Hf; [done|]. exfalso.
    assert (y ∈ filter (fun c => sc_name c = n) l) as Hin
      by (rewrite Hf; by left).
    apply list_elem_of_filter in Hin as [Hy Hin]. apply Hx.
    rewrite Hn, <- Hy. by apply list_elem_of_fmap_2.
  - rewrite filter_cons_False by done. by apply IH.
Qed.

(** ** [validate] and [submit] *)

Lemma with_effects_id w : with_effects (effects w) w = w.
Proof. by destruct w. Qed.

Lemma with_notices_id w : with_notices (notices w ++ []) w = w.
Proof. rewrite app_nil_r. by destruct w. Qed.

(** [runIngest] shows its notices and records the ingest, and leaves the
    rest of the world alone. *)
Section IngestFrame.

Variable path_join : list jsstring -> jsstring.
Variable spawn : SpawnRequest -> list ProcEvent.
Variable parse_sources :
  jsstring -> jsstring + (jsstring + jsstring * jsstring).
Variable render_error : World -> option jsstring.

Lemma ingest_outcome_frame dryRun p w :
  exists later,
    ingest_outcome parse_sources render_error dryRun p w
    = with_notices (notices w ++ later) w
    /\ (length later <= 2)%nat
    /\ (later = [] <-> p = Pending).
Proof.
  unfold ingest_outcome, ingest_failed, notice.
  destruct p as [|raw|e].
  - exists []. rewrite with_notices_id. split; [done|]. split; [simpl; lia|done].
  - destruct (parse_sources raw) as [e|counts].
    { eexists [_]. split; [done|]. split; [simpl; lia|done]. }
    destruct dryRun.
    + cbn [notices with_notices].
      destruct (render_error _) as [e|].
      * eexists [_; _]. cbn [notices with_notices]. rewrite <- app_assoc.
        split; [done|]. split; [simpl; lia|done].
      * eexists [_]. split; [done|]. split; [simpl; lia|done].
    + destruct counts as [e|[published failed]].
      { eexists [_]. split; [done|]. split; [simpl; lia|done]. }
      cbn [notices with_notices].
      destruct (render_error _) as [e|].
      * eexists [_; _]. cbn [notices with_notices]. rewrite <- app_assoc.
        split; [done|]. split; [simpl; lia|done].
      * eexists [_]. split; [done|]. split; [simpl; lia|done].
  - eexists [_]. split; [done|]. split; [simpl; lia|done].
Qed.

Lemma runIngest_frame manifestPath dryRun w :
  exists later,
    runIngest path_join spawn parse_sources render_error manifestPath dryRun w
    = with_notices (notices w ++ ingest_start_text dryRun :: later)
        (with_ingests (ingests w ++ [(manifestPath, dryRun)]) w)
    /\ (length later <= 2)%nat
    /\ (later = [] <->
        runPipelineCmd path_join spawn (settings w)
          (ingest_args manifestPath dryRun) = Pending).
Proof.
  unfold runIngest. cbv zeta.
  match goal with |- context [ingest_outcome _ _ _ ?p ?w2] =>
    destruct (ingest_outcome_frame dryRun p w2) as (later & -> & Hlen & Hp)
  end.
  exists later. split; [|done].
  unfold notice. cbn [notices with_notices with_ingests].
  by rewrite <- app_assoc.
Qed.

Lemma runIngest_settings manifestPath dryRun w :
  settings
    (runIngest path_join spawn parse_sources render_error manifestPath dryRun
       w)
  = settings w.
Proof. by destruct (runIngest_frame manifestPath dryRun w) as (? & -> & _). Qed.

End IngestFrame.

Section SubmitProps.

Variable toLowerCase : jsstring -> jsstring.
Variable path_join : list jsstring -> jsstring.
Variable io_error : list Effect -> Effect -> option jsstring.
Variable spawn : SpawnRequest -> list ProcEvent.
Variable parse_sources :
  jsstring -> jsstring + (jsstring + jsstring * jsstring).
Variable render_error : World -> option jsstring.

Local Abbreviation prepare_ :=
  (prepare toLowerCase path_join io_error spawn parse_sources render_error).
Local Abbreviation submit_ :=
  (submit toLowerCase path_join io_error spawn parse_sources render_error).
Local Abbreviation submit_succeeds_ :=
  (submit_succeeds toLowerCase path_join io_error spawn parse_sources
     render_error).
Local Abbreviation copyFiles_ := (copyFiles path_join io_error).

Lemma missing_title_Some es msg :
  missing_title es = Some msg ->
  exists e, e ∈ es /\ Str.trim (title e) = [] /\ msg = missing_title_text e.
Proof.
  induction es as [|e r IH]; simpl; [done|].
  destruct (Str.trim (title e)) eqn:Ht.
  - intros [= <-]. exists e. split; [by left|done].
  - intros (e' & ? & ? & ?)%IH. exists e'. split; [by right|done].
Qed.

Lemma missing_title_found es e :
  e ∈ es -> Str.trim (title e) = [] -> is_Some (missing_title es).
Proof.
  induction es as [|e' r IH]; [by intros ?%elem_of_nil|].
  simpl. intros [->|Hin]%elem_of_cons Ht.
  - rewrite Ht. eauto.
  - destruct (Str.trim (title e')); eauto.
Qed.

Lemma validate_rejects w :
  entries w = [] \/ Str.trim (collectionInput w) = []
  \/ Str.trim (yearInput w) = []
  \/ (exists e, e ∈ entries w /\ Str.trim (title e) = []) ->
  exists msg,
    validate w = Some msg
    /\ truthy (Some msg) = true
    /\ (msg = lit "Add at least one PDF."
        \/ msg = lit "Enter a collection name."
        \/ msg = lit "Enter a year or edition."
        \/ exists e, e ∈ entries w /\ Str.trim (title e) = []
                     /\ msg = missing_title_text e).
Proof.
  intros H. unfold validate.
  destruct (entries w) as [|e0 r] eqn:He.
  { eexists. split; [done|]. split; [done|]. auto. }
  destruct (Str.trim (collectionInput w)) eqn:Hc.
  { eexists. split; [done|]. split; [done|]. auto. }
  destruct (Str.trim (yearInput w)) eqn:Hy.
  { eexists. split; [done|]. split; [done|]. auto. }
  destruct H as [H|[H|[H|(e & Hin & Ht)]]]; try done.
  destruct (missing_title_found _ _ Hin Ht) as [msg Hmsg].
  exists msg. split; [done|].
  apply missing_title_Some in Hmsg as (e' & ? & ? & ->).
  split; [done|]. do 3 right. eauto.
Qed.

(** The checks are made in the order of the source, and the first one
    that fails gives the message. *)
Lemma validate_order w :
  (entries w = [] -> validate w = Some (lit "Add at least one PDF."))
  /\ (entries w <> [] -> Str.trim (collectionInput w) = [] ->
      validate w = Some (lit "Enter a collection name."))
  /\ (entries w <> [] -> Str.trim (collectionInput w) <> [] ->
      Str.trim (yearInput w) = [] ->
      validate w = Some (lit "Enter a year or edition."))
  /\ (entries w <> [] -> Str.trim (collectionInput w) <> [] ->
      Str.trim (yearInput w) <> [] ->
      validate w = missing_title (entries w)).
Proof.
  unfold validate. destruct (entries w) as [|e0 r]; [done|].
  destruct (Str.trim (collectionInput w)); [done|].
  destruct (Str.trim (yearInput w)); done.
Qed.

(** C2.  When there is no entry, or the trimmed collection name or the
    trimmed year is empty, or some entry has an empty trimmed title,
    [submit] shows a validation message that names the violation and does
    nothing else: no directory is created, no file is copied, no manifest
    is written and the saved collections are as they were. *)
Theorem submit_validation_gate (nowISO : jsstring) (dryRun : bool)
    (w : World) :
  entries w = [] \/ Str.trim (collectionInput w) = []
  \/ Str.trim (yearInput w) = []
  \/ (exists e, e ∈ entries w /\ Str.trim (title e) = []) ->
  exists msg,
    validate w = Some msg
    /\ (msg = lit "Add at least one PDF."
        \/ msg = lit "Enter a collection name."
        \/ msg = lit "Enter a year or edition."
        \/ exists e, e ∈ entries w /\ Str.trim (title e) = []
                     /\ msg = missing_title_text e)
    /\ submit_ nowISO dryRun w = notice msg w
    /\ effects (submit_ nowISO dryRun w) = effects w
    /\ settings (submit_ nowISO dryRun w) = settings w
    /\ ingests (submit_ nowISO dryRun w) = ingests w
    /\ submit_succeeds_ nowISO dryRun w = false.
Proof.
  intros H. destruct (validate_rejects w H) as (msg & Hv & Ht & Hmsg).
  exists msg. unfold submit, submit_succeeds. rewrite Hv, Ht. done.
Qed.

Lemma copyFiles_frame d es w :
  exists l, (copyFiles_ d es w).2 = with_effects (effects w ++ l) w.
Proof.
  revert w. induction es as [|e r IH]; intros w.
  - exists []. simpl. by rewrite app_nil_r, with_effects_id.
  - simpl. unfold bind at 1. unfold perform at 1.
    destruct (io_error (effects w) (ReadFile (file e))).
    { exists []. simpl. by rewrite app_nil_r, with_effects_id. }
    unfold bind at 1. unfold perform at 1. cbn [effects with_effects].
    destruct (io_error _ (WriteFile _ _)).
    { eexists [_]. reflexivity. }
    unfold bind at 1. cbn [effects with_effects].
    match goal with |- context [copyFiles _ _ d r ?w1] =>
      destruct (IH w1) as [l Hl];
      destruct (copyFiles path_join io_error d r w1) as [[paths|err] w2]
    end; simpl in Hl; subst w2; simpl.
    + eexists (_ :: _ :: l). by rewrite <- !app_assoc.
    + eexists (_ :: _ :: l). by rewrite <- !app_assoc.
Qed.

Lemma prepare_settings nowISO dryRun w res w' :
  prepare_ nowISO dryRun w = (res, w') ->
  (settings w' = settings w
   \/ settings w'
      = with_savedCollections
          (upsert (new_collection w) (savedCollections (settings w)))
          (settings w))
  /\ (forall u, res = inl u ->
        settings w'
        = with_savedCollections
            (upsert (new_collection w) (savedCollections (settings w)))
            (settings w)).
Proof.
  unfold prepare. unfold bind, get, modify, perform. cbn [effects].
  destruct (io_error (effects w) (Mkdir _)).
  { intros [= <- <-]. split; [by left|done]. }
  cbn [effects with_effects entries].
  match goal with |- context [copyFiles _ _ ?d ?es ?w1] =>
    destruct (copyFiles_frame d es w1) as [l Hl];
    destruct (copyFiles path_join io_error d es w1) as [[paths|err] w2]
  end; simpl in Hl; subst w2.
  2:{ intros [= <- <-]. split; [by left|done]. }
  cbn [effects with_effects entries settings].
  destruct (io_error _ (Mkdir _)).
  { intros [= <- <-]. split; [by left|done]. }
  cbn [effects with_effects entries settings].
  destruct (io_error _ (WriteFile _ _)).
  { intros [= <- <-]. split; [by left|done]. }
  cbn [effects with_effects with_settings entries settings].
  destruct (io_error _ (SaveSettings _)).
  { intros [= <- <-]. split; [by right|done]. }
  intros [= <- <-].
  match goal with |- context [runIngest _ _ _ _ ?mp ?d ?w1] =>
    destruct (runIngest_frame path_join spawn parse_sources render_error
                mp d w1) as (later & -> & _)
  end.
  split; [by right|done].
Qed.

Local Abbreviation reachable_ :=
  (reachable toLowerCase path_join io_error spawn parse_sources
     render_error).

Lemma submit_settings nowISO dryRun w :
  settings (submit_ nowISO dryRun w) = settings w
  \/ settings (submit_ nowISO dryRun w)
     = with_savedCollections
         (upsert (new_collection w) (savedCollections (settings w)))
         (settings w).
Proof.
  unfold submit. destruct (truthy (validate w)); [by left|].
  destruct (prepare_ nowISO dryRun (preparing w)) as [[u|err] w'] eqn:Hp;
    apply prepare_settings in Hp as [Hp _]; exact Hp.
Qed.

Lemma submit_succeeds_settings nowISO dryRun w :
  submit_succeeds_ nowISO dryRun w = true ->
  settings (submit_ nowISO dryRun w)
  = with_savedCollections
      (upsert (new_collection w) (savedCollections (settings w)))
      (settings w).
Proof.
  unfold submit, submit_succeeds. rewrite andb_true_iff, negb_true_iff.
  intros [-> Hok].
  destruct (prepare_ nowISO dryRun (preparing w)) as [[u|err] w'] eqn:Hp;
    [|done].
  apply prepare_settings in Hp as [_ Hp]. by apply (Hp u).
Qed.

(** The names of the saved collections are pairwise distinct in every
    world reached from settings without saved collections. *)
Lemma reachable_names_unique w :
  reachable_ w -> NoDup (sc_name <$> savedCollections (settings w)).
Proof.
  induction 1 as [w Hw|w w' _ IH Hw|nowISO dryRun w _ IH].
  - rewrite Hw. constructor.
  - by rewrite Hw.
  - destruct (submit_settings nowISO dryRun w) as [->| ->]; [done|].
    simpl. by apply upsert_NoDup.
Qed.

(** C9, as the code has it.  After a successful [submit] with the trimmed
    collection name [n], the first saved collection named [n] has been
    replaced in place by the submitted one, or the submitted one has been
    appended when none had the name, so that the list grew by at most one
    record and lost none; every record with another name is where it was,
    unchanged; and the records named [n] are as many as before, or one if
    there was none.  So when at most one record was named [n] before, as
    in every world reached from settings without saved collections,
    exactly one is afterwards, in the place of the old one if there was
    one. *)
Theorem submit_upserts (nowISO : jsstring) (dryRun : bool) (w : World) :
  submit_succeeds_ nowISO dryRun w = true ->
  let n := Str.trim (collectionInput w) in
  let old := savedCollections (settings w) in
  let new := savedCollections (settings (submit_ nowISO dryRun w)) in
  let named := filter (fun c => sc_name c = n) in
  (forall i c, old !! i = Some c -> sc_name c = n ->
     (forall j c', (j < i)%nat -> old !! j = Some c' -> sc_name c' <> n) ->
     new = <[i := new_collection w]> old)
  /\ ((forall c, c ∈ old -> sc_name c <> n) ->
      new = old ++ [new_collection w])
  /\ (length old <= length new <= S (length old))%nat
  /\ (forall i c, old !! i = Some c -> sc_name c <> n ->
        new !! i = Some c)
  /\ length (named new) = Nat.max 1 (length (named old))
  /\ ((length (named old) <= 1)%nat ->
      (exists i col,
         new !! i = Some col /\ sc_name col = n
         /\ forall j c, new !! j = Some c -> sc_name c = n -> j = i)
      /\ (forall i c, old !! i = Some c -> sc_name c = n ->
            new = <[i := new_collection w]> old))
  /\ (reachable_ w -> (length (named old) <= 1)%nat).
Proof.
  intros Hok n old new named.
  assert (Hnew : new = upsert (new_collection w) old).
  { unfold new. by rewrite submit_succeeds_settings. }
  assert (Hcount : length (named new) = Nat.max 1 (length (named old))).
  { rewrite Hnew. apply (upsert_count (new_collection w) old). }
  split; [|split; [|split; [|split; [|split; [|split]]]]].
  - intros i c Hi Hc Hfirst. rewrite Hnew.
    by apply (upsert_first _ _ i c).
  - intros Hfresh. rewrite Hnew. by apply upsert_append.
  - rewrite Hnew. apply upsert_length.
  - intros i c Hi Hc. rewrite Hnew. by apply upsert_other.
  - exact Hcount.
  - intros Hone. split.
    + destruct (upsert_holds (new_collection w) old) as [i Hi].
      rewrite <- Hnew in Hi.
      exists i, (new_collection w). split; [done|]. split; [done|].
      intros j c Hj Hc.
      apply (filter_at_most_one (fun c => sc_name c = n) new j i c
               (new_collection w)); try done.
      fold (named new). rewrite Hcount. lia.
    + intros i c Hi Hc. rewrite Hnew.
      apply (upsert_first _ _ i c); [done|done|].
      intros j c' Hlt Hj Hc'.
      assert (j = i); [|lia].
      by apply (filter_at_most_one (fun c => sc_name c = n) old j i c' c).
  - intros Hreach. apply NoDup_names_at_most_one.
    by apply reachable_names_unique.
Qed.

End SubmitProps.

Lemma submit_validation_gate_witness :
  entries empty_world = []
  /\ submit lower_ascii_only simple_join no_io_error quiet_process
       empty_summary render_ok sample_now false empty_world
     = notice (lit "Add at least one PDF.") empty_world.
Proof.
  split; [reflexivity|].
  destruct (submit_validation_gate lower_ascii_only simple_join no_io_error
              quiet_process empty_summary render_ok sample_now false
              empty_world (or_introl eq_refl))
    as (msg & Hv & _ & Hs & _).
  rewrite Hs. injection Hv as <-. reflexivity.
Defined.

Lemma submit_upserts_witness :
  savedCollections
    (settings
       (submit lower_ascii_only simple_join no_io_error quiet_process
          empty_summary render_ok sample_now false library_world))
  = [new_collection library_world; netter_2019].
Proof.
  destruct (submit_upserts lower_ascii_only simple_join no_io_error
              quiet_process empty_summary render_ok sample_now false
              library_world eq_refl)
    as (Hfirst & _).
  apply (Hfirst 0%nat gray_1858 eq_refl eq_refl). intros j c' Hj. lia.
Defined.

(** C9, as the specification has it, fails: when the settings that were
    loaded hold two records of the name, a successful [submit] replaces
    the first and leaves the second, so two records have the name
    afterwards. *)
Lemma submit_upserts_duplicate_counterexample :
  submit_succeeds lower_ascii_only simple_join no_io_error quiet_process
    empty_summary render_ok sample_now false duplicate_world = true
  /\ savedCollections
       (settings
          (submit lower_ascii_only simple_join no_io_error quiet_process
             empty_summary render_ok sample_now false duplicate_world))
     = [new_collection duplicate_world; gray_1901]
  /\ sc_name (new_collection duplicate_world)
     = Str.trim (collectionInput duplicate_world)
  /\ sc_name gray_1901 = Str.trim (collectionInput duplicate_world).
Proof. vm_compute. repeat split. Qed.

(** ** [buildCitationKey] *)

Lemma split_runs_from_head P cur s :
  exists rest,
    Str.split_runs_from P false cur s
    = (cur ++ take_while (fun c => negb (P c)) s) :: rest.
Proof.
  revert cur. induction s as [|c r IH]; intros cur; simpl.
  - exists []. by rewrite app_nil_r.
  - destruct (P c); simpl.
    + eexists. by rewrite app_nil_r.
    + destruct (IH (cur ++ [c])) as [rest ->]. exists rest.
      by rewrite <- app_assoc.
Qed.

Lemma first_token_no_leading_space s :
  Re.starts_with Char.is_space s = false ->
  first_token s = take_while non_space s.
Proof.
  unfold first_token. destruct s as [|c r]; [done|]. simpl. by intros ->.
Qed.

Section CitationKeyProps.

Variable toLowerCase : jsstring -> jsstring.

(** C3, as the code has it.  The citation key is the slug of the first
    piece of the collection name split at white space (its first token
    when the name does not start with white space, as in [submit], which
    trims it), a hyphen, and the first 60 characters of the slug of the
    title: the title is slugified first and the slug is cut, so the title
    part of the key has at most 60 characters.  The key is a function of
    the collection name and the title alone. *)
Theorem buildCitationKey_derivation (collectionName title : jsstring) :
  buildCitationKey toLowerCase collectionName title
  = slugify toLowerCase (take_while non_space collectionName)
    ++ [c_hyphen] ++ Str.slice0 60 (slugify toLowerCase title)
  /\ (Re.starts_with Char.is_space collectionName = false ->
      take_while non_space collectionName = first_token collectionName)
  /\ (length (Str.slice0 60 (slugify toLowerCase title)) <= 60)%nat
  /\ (forall c' t', c' = collectionName -> t' = title ->
        buildCitationKey toLowerCase c' t'
        = buildCitationKey toLowerCase collectionName title).
Proof.
  split; [|split; [|split]].
  - unfold buildCitationKey, Str.split_runs.
    destruct (split_runs_from_head Char.is_space [] collectionName)
      as [rest ->]. done.
  - intros H. by rewrite first_token_no_leading_space.
  - unfold Str.slice0. rewrite length_take. lia.
  - by intros c' t' -> ->.
Qed.

End CitationKeyProps.

(** C3, as the specification has it, fails: on a title whose slug is
    shorter than the title, cutting the title first loses characters that
    the code keeps. *)
Lemma buildCitationKey_cut_order_counterexample :
  buildCitationKey lower_ascii_only (lit "Cummings Otolaryngology") long_title
  = lit "cummings-chapter-12-anatomy-physiology-and-disorders-of-the-human-mid"
  /\ citation_key_as_specified lower_ascii_only
       (lit "Cummings Otolaryngology") long_title
     = lit "cummings-chapter-12-anatomy-physiology-and-disorders-of-the-human-m"
  /\ Str.eqb
       (buildCitationKey lower_ascii_only (lit "Cummings Otolaryngology")
          long_title)
       (citation_key_as_specified lower_ascii_only
          (lit "Cummings Otolaryngology") long_title)
     = false.
Proof. vm_compute. repeat split. Qed.


(* ================================================================== *)
(** * Further properties *)

(** ** Runs of [submit] *)

Lemma with_effects_twice a b w :
  with_effects a (with_effects b w) = with_effects a w.
Proof. done. Qed.

Lemma perform_all_app io hist a b :
  perform_all io hist (a ++ b)
  = match perform_all io hist a with
    | (l, Some err) => (l, Some err)
    | (l, None) =>
        let '(l', res) := perform_all io (hist ++ l) b in (l ++ l', res)
    end.
Proof.
  revert hist. induction a as [|e a IH]; intros hist; simpl.
  - rewrite app_nil_r. by destruct (perform_all io hist b).
  - destruct (io hist e); [done|]. rewrite IH.
    destruct (perform_all io (hist ++ [e]) a) as [l [err|]]; [done|].
    rewrite <- app_assoc. simpl.
    by destruct (perform_all io (hist ++ e :: l) b).
Qed.

Lemma perform_all_prefix io hist todo :
  (perform_all io hist todo).1 `prefix_of` todo.
Proof.
  revert hist. induction todo as [|e r IH]; intros hist; simpl.
  - done.
  - destruct (io hist e); [apply prefix_nil|].
    specialize (IH (hist ++ [e])).
    destruct (perform_all io (hist ++ [e]) r) as [l res]. simpl in *.
    by apply prefix_cons.
Qed.

Lemma perform_all_complete io hist todo l :
  perform_all io hist todo = (l, None) -> l = todo.
Proof.
  revert hist l. induction todo as [|e r IH]; intros hist l; simpl.
  - by intros [= <-].
  - destruct (io hist e); [done|].
    destruct (perform_all io (hist ++ [e]) r) as [l' res] eqn:Hr.
    intros [= <- ->]. f_equal. by eapply IH.
Qed.

(** A refusal leaves the refused effect and what follows undone. *)
Lemma perform_all_refused io hist todo l err :
  perform_all io hist todo = (l, Some err) ->
  exists e rest, todo = l ++ e :: rest /\ io (hist ++ l) e = Some err.
Proof.
  revert hist l. induction todo as [|e r IH]; intros hist l; simpl; [done|].
  destruct (io hist e) as [err'|] eqn:He.
  - intros [= <- <-]. exists e, r. by rewrite app_nil_r.
  - destruct (perform_all io (hist ++ [e]) r) as [l' res] eqn:Hr.
    intros [= <- ->]. destruct (IH _ _ Hr) as (e' & rest & -> & Hio).
    exists e', rest. split; [done|]. by rewrite <- app_assoc in Hio.
Qed.

Section SubmitRun.

Variable toLowerCase : jsstring -> jsstring.
Variable path_join : list jsstring -> jsstring.
Variable io_error : list Effect -> Effect -> option jsstring.
Variable spawn : SpawnRequest -> list ProcEvent.
Variable parse_sources :
  jsstring -> jsstring + (jsstring + jsstring * jsstring).
Variable render_error : World -> option jsstring.

Local Abbreviation prepare_ :=
  (prepare toLowerCase path_join io_error spawn parse_sources render_error).
Local Abbreviation submit_ :=
  (submit toLowerCase path_join io_error spawn parse_sources render_error).
Local Abbreviation submit_succeeds_ :=
  (submit_succeeds toLowerCase path_join io_error spawn parse_sources
     render_error).
Local Abbreviation plan_ := (submit_plan toLowerCase path_join).
Local Abbreviation manifest_path_ := (manifest_path toLowerCase path_join).
Local Abbreviation saved_settings_ := (saved_settings).

Lemma copyFiles_run d es w :
  copyFiles path_join io_error d es w
  = let '(l, res) :=
      perform_all io_error (effects w)
        (flat_map
           (fun e => [ReadFile (file e);
                      WriteFile (path_join [d; File.name (file e)])
                        (Bytes (File.content (file e)))]) es) in
    (match res with
     | None => inl ((fun e => path_join [d; File.name (file e)]) <$> es)
     | Some err => inr err
     end,
     with_effects (effects w ++ l) w).
Proof.
  revert w. induction es as [|e r IH]; intros w.
  - simpl. by rewrite app_nil_r, with_effects_id.
  - cbn [copyFiles flat_map app perform_all]. unfold bind at 1.
    unfold perform at 1.
    destruct (io_error (effects w) (ReadFile (file e))).
    { by rewrite app_nil_r, with_effects_id. }
    unfold bind at 1. unfold perform at 1. cbn [effects with_effects].
    destruct (io_error (effects w ++ [ReadFile (file e)]) (WriteFile _ _)).
    { done. }
    unfold bind at 1. rewrite IH. cbn [effects with_effects].
    destruct (perform_all io_error _ _) as [l [err|]]; simpl;
      by rewrite <- !app_assoc.
Qed.

Lemma prepare_run nowISO dryRun w :
  prepare_ nowISO dryRun w
  = let '(l, res) := perform_all io_error (effects w) (plan_ nowISO w) in
    (match res with None => inl tt | Some err => inr err end,
     after_prepare toLowerCase path_join spawn parse_sources render_error
          nowISO dryRun w l res).
Proof.
  unfold prepare, submit_plan. unfold bind, get, modify, perform.
  cbn [app perform_all effects].
  destruct (io_error (effects w) (Mkdir _)).
  { simpl. rewrite bool_decide_eq_false_2
      by (rewrite length_app; simpl; lia).
    by rewrite app_nil_r, with_effects_id. }
  rewrite copyFiles_run. cbn [effects with_effects entries].
  rewrite perform_all_app.
  fold (dest_dir toLowerCase path_join w).
  change (flat_map _ (entries w))
    with (copy_effects toLowerCase path_join w (entries w)).
  destruct (perform_all io_error _ (copy_effects _ _ w (entries w)))
    as [l [err|]] eqn:Hcopy.
  { unfold after_prepare.
    match type of Hcopy with
    | perform_all ?io ?h ?t = _ => pose proof (perform_all_prefix io h t) as Hp
    end.
    rewrite Hcopy in Hp. apply prefix_length in Hp. simpl in Hp.
    rewrite bool_decide_eq_false_2
      by (simpl; rewrite !length_app; simpl; lia).
    by rewrite <- app_assoc. }
  apply perform_all_complete in Hcopy as ->.
  cbn [effects with_effects entries settings perform_all].
  fold (manifests_dir path_join w).
  destruct (io_error _ (Mkdir (manifests_dir path_join w))).
  { unfold after_prepare.
    rewrite bool_decide_eq_false_2
      by (simpl; rewrite !length_app; simpl; lia).
    by rewrite app_nil_r, <- app_assoc. }
  cbn [effects with_effects entries settings with_settings].
  change (WriteFile _ (Utf8 _))
    with (WriteFile (manifest_path_ nowISO w)
            (Utf8 (manifest_csv toLowerCase path_join w))).
  destruct (io_error _ (WriteFile _ _)).
  { unfold after_prepare.
    rewrite bool_decide_eq_false_2
      by (simpl; rewrite !length_app; simpl; lia).
    by rewrite <- !app_assoc. }
  cbn [effects with_effects entries settings with_settings].
  change (with_savedCollections _ (settings w)) with (saved_settings w).
  destruct (io_error _ (SaveSettings _)).
  { unfold after_prepare.
    rewrite bool_decide_eq_true_2
      by (simpl; rewrite !length_app; simpl; lia).
    by rewrite <- !app_assoc. }
  unfold after_prepare. cbn [effects with_effects with_closed with_settings].
  by rewrite <- !app_assoc.
Qed.

Local Abbreviation run_ nowISO w :=
  (perform_all io_error (effects w) (plan_ nowISO w)).

Lemma validate_not_empty w : validate w <> Some [].
Proof.
  unfold validate. destruct (entries w) as [|e0 r]; [done|].
  destruct (Str.trim (collectionInput w)); [done|].
  destruct (Str.trim (yearInput w)); [done|].
  induction (e0 :: r) as [|e es IH]; simpl; [done|].
  destruct (Str.trim (title e)); done.
Qed.

Lemma truthy_validate w : truthy (validate w) = false <-> validate w = None.
Proof.
  pose proof (validate_not_empty w) as H.
  destruct (validate w) as [[|c m]|]; simpl; split; done.
Qed.

Lemma missing_title_None es :
  missing_title es = None <-> Forall (fun e => Str.trim (title e) <> []) es.
Proof.
  induction es as [|e r IH]; simpl.
  - split; [constructor|done].
  - rewrite Forall_cons. destruct (Str.trim (title e)).
    + split; [done|]. by intros [? _].
    + rewrite IH. split; [by split|by intros [_ ?]].
Qed.

Lemma missing_title_first es m :
  missing_title es = Some m ->
  exists pre e post,
    es = pre ++ e :: post
    /\ Forall (fun e => Str.trim (title e) <> []) pre
    /\ Str.trim (title e) = [] /\ m = missing_title_text e.
Proof.
  induction es as [|e r IH]; simpl; [done|].
  destruct (Str.trim (title e)) eqn:Ht.
  - intros [= <-]. exists [], e, r. by repeat split.
  - intros (pre & e' & post & -> & Hpre & He' & ->)%IH.
    exists (e :: pre), e', post. repeat split; [|done].
    constructor; [by rewrite Ht|done].
Qed.

(** X1.  [validate] returns [null] exactly when there is an entry, the
    trimmed collection name and the trimmed year are not empty and every
    entry has a title that is not empty once trimmed; when only titles are
    missing, the message names the file of the first entry without one. *)
Theorem validate_accepts (w : World) :
  (validate w = None <->
     entries w <> [] /\ Str.trim (collectionInput w) <> []
     /\ Str.trim (yearInput w) <> []
     /\ Forall (fun e => Str.trim (title e) <> []) (entries w))
  /\ (forall m,
        entries w <> [] -> Str.trim (collectionInput w) <> [] ->
        Str.trim (yearInput w) <> [] -> validate w = Some m ->
        exists pre e post,
          entries w = pre ++ e :: post
          /\ Forall (fun e => Str.trim (title e) <> []) pre
          /\ Str.trim (title e) = [] /\ m = missing_title_text e).
Proof.
  unfold validate. destruct (entries w) as [|e0 r] eqn:He.
  { split; [|done]. split; [done|]. by intros [? _]. }
  destruct (Str.trim (collectionInput w)).
  { split; [|done]. split; [done|]. by intros (_ & ? & _). }
  destruct (Str.trim (yearInput w)).
  { split; [|done]. split; [done|]. by intros (_ & _ & ? & _). }
  split.
  - rewrite missing_title_None. split; [by repeat split|by intros (_ & _ & _ & ?)].
  - intros m _ _ _. apply missing_title_first.
Qed.

Lemma submit_unfold nowISO dryRun w :
  validate w = None ->
  submit_ nowISO dryRun w
  = match run_ nowISO w with
    | (l, None) =>
        after_prepare toLowerCase path_join spawn parse_sources render_error
          nowISO dryRun (preparing w) l None
    | (l, Some err) =>
        with_buttons
          {| processDisabled := false; dryRunDisabled := false;
             processText := lit "Process" |}
          (notice (lit "Failed to prepare ingest: " ++ err)
             (after_prepare toLowerCase path_join spawn parse_sources render_error
          nowISO dryRun (preparing w)
                l (Some err)))
    end
  /\ submit_succeeds_ nowISO dryRun w
     = match run_ nowISO w with (_, None) => true | _ => false end.
Proof.
  intros Hv. unfold submit, submit_succeeds. rewrite Hv.
  cbn [truthy negb andb]. rewrite prepare_run.
  change (plan_ nowISO (preparing w)) with (plan_ nowISO w).
  change (effects (preparing w)) with (effects w).
  destruct (perform_all io_error (effects w) (plan_ nowISO w)) as [l [err|]];
    split; reflexivity.
Qed.

Lemma submit_succeeds_validate nowISO dryRun w :
  submit_succeeds_ nowISO dryRun w = true -> validate w = None.
Proof.
  unfold submit_succeeds. rewrite andb_true_iff, negb_true_iff.
  intros [Hv _]. by apply truthy_validate.
Qed.

(** X2.  A [submit] gets through exactly when validation passes and the
    world refuses none of the effects of the plan.  It then performs
    exactly these effects, in order, after those already performed: the
    destination directory is made, each file is read and written under it
    in the order of the entries, the manifests directory is made, the
    manifest is written and the settings are saved with the collection
    upserted.  The modal is then closed and [runIngest] is run on the
    manifest path with the dry-run flag of the button: one ingest is
    started, the notice of its start is shown, and at most two notices
    follow it, none as long as the child process has neither closed nor
    failed.  The entries are left as they are. *)
Theorem submit_success (nowISO : jsstring) (dryRun : bool) (w : World) :
  (submit_succeeds_ nowISO dryRun w = true <->
     validate w = None /\ run_ nowISO w = (plan_ nowISO w, None))
  /\ (submit_succeeds_ nowISO dryRun w = true ->
      submit_ nowISO dryRun w
      = runIngest path_join spawn parse_sources render_error
          (manifest_path_ nowISO w) dryRun
          (with_closed true
             (with_effects (effects w ++ plan_ nowISO w)
                (with_settings (saved_settings w) (preparing w))))
      /\ effects (submit_ nowISO dryRun w) = effects w ++ plan_ nowISO w
      /\ settings (submit_ nowISO dryRun w) = saved_settings w
      /\ closed (submit_ nowISO dryRun w) = true
      /\ ingests (submit_ nowISO dryRun w)
         = ingests w ++ [(manifest_path_ nowISO w, dryRun)]
      /\ entries (submit_ nowISO dryRun w) = entries w
      /\ exists later,
           notices (submit_ nowISO dryRun w)
           = notices w ++ ingest_start_text dryRun :: later
           /\ (length later <= 2)%nat
           /\ (later = [] <->
               runPipelineCmd path_join spawn (saved_settings w)
                 (ingest_args (manifest_path_ nowISO w) dryRun) = Pending)).
Proof.
  assert (Hiff : submit_succeeds_ nowISO dryRun w = true <->
     validate w = None /\ run_ nowISO w = (plan_ nowISO w, None)).
  { split.
    - intros Hok. pose proof (submit_succeeds_validate _ _ _ Hok) as Hv.
      split; [done|].
      destruct (submit_unfold nowISO dryRun w Hv) as [_ Hs].
      rewrite Hs in Hok.
      destruct (run_ nowISO w) as [l [err|]] eqn:Hrun; [done|].
      by apply perform_all_complete in Hrun as ->.
    - intros [Hv Hrun].
      destruct (submit_unfold nowISO dryRun w Hv) as [_ ->]. by rewrite Hrun. }
  split; [exact Hiff|]. intros [Hv Hrun]%Hiff.
  destruct (submit_unfold nowISO dryRun w Hv) as [-> _]. rewrite Hrun.
  unfold after_prepare. split; [done|].
  match goal with |- context [runIngest _ _ _ _ ?mp ?d ?w1] =>
    destruct (runIngest_frame path_join spawn parse_sources render_error
                mp d w1) as (later & -> & Hlen & Hp)
  end.
  split_and!; try done. by exists later.
Qed.

Lemma copy_effects_no_save w es :
  forallb (fun e => negb (is_save e))
    (copy_effects toLowerCase path_join w es) = true.
Proof. induction es as [|e r IH]; [done|]. simpl. exact IH. Qed.

Lemma plan_save_last nowISO w l next rest :
  plan_ nowISO w = l ++ next :: rest ->
  forallb (fun e => negb (is_save e)) l = true
  /\ (rest = [] <-> S (length l) = length (plan_ nowISO w))
  /\ (rest = [] -> next = SaveSettings (saved_settings w)).
Proof.
  set (body := [Mkdir (dest_dir toLowerCase path_join w)]
               ++ copy_effects toLowerCase path_join w (entries w)
               ++ [Mkdir (manifests_dir path_join w);
                   WriteFile (manifest_path_ nowISO w)
                     (Utf8 (manifest_csv toLowerCase path_join w))]).
  assert (Hplan : plan_ nowISO w = body ++ [SaveSettings (saved_settings w)]).
  { unfold submit_plan, body. by rewrite <- !app_assoc. }
  assert (Hbody : forallb (fun e => negb (is_save e)) body = true).
  { unfold body. rewrite !forallb_app, copy_effects_no_save. done. }
  intros Hl. split; [|split].
  - rewrite Hplan in Hl. destruct rest as [|z rest _] using rev_ind.
    + apply app_inj_tail in Hl as [<- _]. done.
    + change (l ++ next :: rest ++ [z]) with (l ++ (next :: rest) ++ [z]) in Hl.
      rewrite app_assoc in Hl. apply app_inj_tail in Hl as [Hl _].
      rewrite Hl, forallb_app in Hbody. by apply andb_true_iff in Hbody as [? _].
  - rewrite Hl, length_app. simpl. split.
    + intros ->. simpl. lia.
    + intros Hlen. destruct rest; [done|]. simpl in Hlen. lia.
  - intros ->. rewrite Hplan in Hl. by apply app_inj_tail in Hl as [_ <-].
Qed.

(** X3.  When validation passes and the world refuses one of the effects of
    the plan, [submit] stops there: the effects before the refused one have
    been performed and are not undone, none of later ones is attempted, the
    settings are not saved, one notice "Failed to prepare ingest: <error>"
    is shown, no ingest is started, the modal stays as it was and both
    buttons are enabled again.  The saved collections are changed in memory
    only when the refused effect is [saveSettings] itself. *)
Theorem submit_failure (nowISO : jsstring) (dryRun : bool) (w : World) :
  validate w = None ->
  submit_succeeds_ nowISO dryRun w = false ->
  exists l next rest err,
    plan_ nowISO w = l ++ next :: rest
    /\ io_error (effects w ++ l) next = Some err
    /\ effects (submit_ nowISO dryRun w) = effects w ++ l
    /\ forallb (fun e => negb (is_save e)) l = true
    /\ notices (submit_ nowISO dryRun w)
       = notices w ++ [lit "Failed to prepare ingest: " ++ err]
    /\ ingests (submit_ nowISO dryRun w) = ingests w
    /\ closed (submit_ nowISO dryRun w) = closed w
    /\ buttons (submit_ nowISO dryRun w)
       = mkButtons false false (lit "Process")
    /\ (rest <> [] -> settings (submit_ nowISO dryRun w) = settings w)
    /\ (rest = [] -> next = SaveSettings (saved_settings w)
                     /\ settings (submit_ nowISO dryRun w) = saved_settings w).
Proof.
  intros Hv Hfail. destruct (submit_unfold nowISO dryRun w Hv) as [Hs Hok].
  rewrite Hfail in Hok. rewrite Hs.
  destruct (run_ nowISO w) as [l [err|]] eqn:Hrun; [|done].
  destruct (perform_all_refused _ _ _ _ _ Hrun) as (next & rest & Hplan & Hio).
  destruct (plan_save_last nowISO w l next rest Hplan) as (Hsave & Hlast & Hnext).
  exists l, next, rest, err. split; [done|]. split; [done|].
  unfold after_prepare.
  change (plan_ nowISO (preparing w)) with (plan_ nowISO w).
  destruct (bool_decide (S (length l) = length (plan_ nowISO w))) eqn:Hd.
  - apply bool_decide_eq_true in Hd. apply Hlast in Hd.
    split_and!; try done. intros _. split; [by apply Hnext|done].
  - apply bool_decide_eq_false in Hd.
    split_and!; try done. intros Hr. by apply Hlast in Hr.
Qed.

(** X4.  Whatever happens, [submit] leaves the entries, the three inputs
    and the other settings as they are, removes nothing from the effects
    performed, the notices shown and the ingests started, and ends in
    exactly one of two ways: with one more notice, no ingest and the modal
    as open as it was, or with the modal closed, one more ingest and the
    notices of [runIngest], which are the notice of its start and at most
    two more. *)
Theorem submit_frame (nowISO : jsstring) (dryRun : bool) (w : World) :
  let w' := submit_ nowISO dryRun w in
  entries w' = entries w
  /\ collectionInput w' = collectionInput w
  /\ yearInput w' = yearInput w
  /\ authorsInput w' = authorsInput w
  /\ pipelineDir (settings w') = pipelineDir (settings w)
  /\ pythonPath (settings w') = pythonPath (settings w)
  /\ autoRefreshSec (settings w') = autoRefreshSec (settings w)
  /\ effects w `prefix_of` effects w'
  /\ ((exists m, notices w' = notices w ++ [m] /\ ingests w' = ingests w
                 /\ closed w' = closed w)
      \/ (exists p later,
            ingests w' = ingests w ++ [(p, dryRun)]
            /\ notices w' = notices w ++ ingest_start_text dryRun :: later
            /\ (length later <= 2)%nat
            /\ closed w' = true)).
Proof.
  intros w'. unfold w'.
  destruct (validate w) as [m|] eqn:Hv.
  - unfold submit. rewrite Hv.
    assert (Ht : truthy (Some m) = true).
    { pose proof (validate_not_empty w) as Hne. rewrite Hv in Hne.
      destruct m; done. }
    rewrite Ht. repeat split; try done. left. by exists m.
  - destruct (submit_unfold nowISO dryRun w Hv) as [-> _].
    destruct (run_ nowISO w) as [l [err|]].
    + unfold after_prepare. destruct (bool_decide _);
        (repeat split; try done; [by apply prefix_app_r|left; eauto]).
    + unfold after_prepare.
      match goal with |- context [runIngest _ _ _ _ ?mp ?d ?w1] =>
        destruct (runIngest_frame path_join spawn parse_sources render_error
                    mp d w1) as (later & -> & Hlen & _)
      end.
      repeat split; try done; [by apply prefix_app_r|].
      right. by exists (manifest_path_ nowISO w), later.
Qed.

End SubmitRun.

(** ** The manifest read back *)

Lemma csv_read_quoted_body f acc row rest :
  csv_read_from Quoted acc row
    (Str.replace_each (N.eqb c_quote) [c_quote; c_quote] f
     ++ c_quote :: rest)
  = csv_read_from QuoteSeen (acc ++ f) row rest.
Proof.
  unfold Str.replace_each. revert acc.
  induction f as [|c f IH]; intros acc.
  - simpl. by rewrite app_nil_r.
  - cbn [flat_map]. destruct (N.eqb_spec c_quote c) as [<-|Hne].
    + cbn [app csv_read_from]. change (c_quote =? c_quote) with true.
      cbn iota. change (c_quote =? c_comma) with false.
      change (c_quote =? c_newline) with false. cbn iota.
      rewrite IH. by rewrite <- app_assoc.
    + cbn [app csv_read_from].
      destruct (N.eqb_spec c c_quote) as [->|_]; [done|].
      rewrite IH. by rewrite <- app_assoc.
Qed.

Lemma csv_read_plain f st acc row :
  st <> Quoted ->
  forallb (fun c => negb (is_csv_special c)) f = true ->
  exists st', st' <> Quoted
    /\ forall rest,
         csv_read_from st acc row (f ++ rest)
         = csv_read_from st' (acc ++ f) row rest.
Proof.
  revert st acc. induction f as [|c f IH]; intros st acc Hst Hf.
  - exists st. split; [done|]. intros rest. by rewrite app_nil_r.
  - simpl in Hf. apply andb_true_iff in Hf as [Hc Hf].
    unfold is_csv_special in Hc.
    apply negb_true_iff, orb_false_iff in Hc as [Hc Hnl].
    apply orb_false_iff in Hc as [Hcomma Hquote].
    destruct (IH Unquoted (acc ++ [c]) ltac:(done) Hf) as (st' & Hst' & Heq).
    exists st'. split; [done|]. intros rest. specialize (Heq rest).
    rewrite <- app_assoc in Heq. simpl in Heq.
    rewrite <- Heq. cbn [app csv_read_from].
    rewrite Hcomma, Hquote, Hnl. by destruct st.
Qed.

Lemma escapeCSV_plain f :
  forallb (fun c => negb (is_csv_special c)) f = true <-> escapeCSV f = f.
Proof.
  unfold escapeCSV, Str.includes. split.
  - intros Hf.
    assert (Hno : forall x, is_csv_special x = true -> existsb (N.eqb x) f = false).
    { intros x Hx. apply not_true_is_false. intros (y & Hy & ->%N.eqb_eq)%existsb_exists.
      rewrite forallb_forall in Hf. apply Hf in Hy. by rewrite Hx in Hy. }
    by rewrite !Hno.
  - destruct (existsb (N.eqb c_comma) f || existsb (N.eqb c_quote) f
              || existsb (N.eqb c_newline) f) eqn:Hs.
    + intros Heq. apply (f_equal length) in Heq.
      rewrite !length_app in Heq. cbn [length] in Heq.
      assert (length f <= length (Str.replace_each (N.eqb c_quote)
                                    [c_quote; c_quote] f))%nat; [|lia].
      unfold Str.replace_each. clear. induction f as [|c f IH]; [done|].
      cbn [flat_map]. rewrite length_app.
      destruct (c_quote =? c); cbn [length]; lia.
    + intros _. apply orb_false_iff in Hs as [Hs Hnl].
      apply orb_false_iff in Hs as [Hcomma Hquote].
      apply forallb_forall. intros x Hx. apply negb_true_iff.
      unfold is_csv_special.
      destruct (N.eqb_spec x c_comma) as [->|_].
      { exfalso. apply not_true_iff_false in Hcomma. apply Hcomma.
        apply existsb_exists. exists c_comma. by rewrite N.eqb_refl. }
      destruct (N.eqb_spec x c_quote) as [->|_].
      { exfalso. apply not_true_iff_false in Hquote. apply Hquote.
        apply existsb_exists. exists c_quote. by rewrite N.eqb_refl. }
      destruct (N.eqb_spec x c_newline) as [->|_]; [|done].
      exfalso. apply not_true_iff_false in Hnl. apply Hnl.
      apply existsb_exists. exists c_newline. by rewrite N.eqb_refl.
Qed.

Lemma csv_read_field_escaped f row :
  exists st', st' <> Quoted
    /\ forall rest,
         csv_read_from FieldStart [] row (escapeCSV f ++ rest)
         = csv_read_from st' f row rest.
Proof.
  destruct (forallb (fun c => negb (is_csv_special c)) f) eqn:Hf.
  - rewrite (proj1 (escapeCSV_plain f) Hf).
    by apply (csv_read_plain f FieldStart []).
  - exists QuoteSeen. split; [done|]. intros rest.
    assert (Hq : escapeCSV f
                 = [c_quote] ++ Str.replace_each (N.eqb c_quote)
                                  [c_quote; c_quote] f ++ [c_quote]).
    { unfold escapeCSV.
      destruct (Str.includes c_comma f || Str.includes c_quote f
                || Str.includes c_newline f) eqn:Hs; [done|].
      exfalso. apply not_true_iff_false in Hf. apply Hf.
      apply escapeCSV_plain. unfold escapeCSV. by rewrite Hs. }
    rewrite Hq, <- !app_assoc. cbn [app csv_read_from].
    change (c_quote =? c_comma) with false.
    change (c_quote =? c_newline) with false.
    change (c_quote =? c_quote) with true. cbn iota.
    by rewrite csv_read_quoted_body.
Qed.

Lemma csv_read_sep st f row rest :
  st <> Quoted ->
  csv_read_from st f row (c_comma :: rest)
  = csv_read_from FieldStart [] (row ++ [f]) rest
  /\ csv_read_from st f row (c_newline :: rest)
     = (row ++ [f]) :: csv_read_from FieldStart [] [] rest
  /\ csv_read_from st f row [] = [row ++ [f]].
Proof. by destruct st. Qed.

Lemma csv_row_cons f g fs :
  csv_row (f :: g :: fs) = escapeCSV f ++ [c_comma] ++ csv_row (g :: fs).
Proof. done. Qed.

Lemma csv_read_row fields row :
  fields <> [] ->
  (forall rest,
     csv_read_from FieldStart [] row (csv_row fields ++ c_newline :: rest)
     = (row ++ fields) :: csv_read_from FieldStart [] [] rest)
  /\ csv_read_from FieldStart [] row (csv_row fields) = [row ++ fields].
Proof.
  revert row. induction fields as [|f fs IH]; intros row Hne; [done|].
  destruct (csv_read_field_escaped f row) as (st & Hst & Hf).
  destruct (csv_read_sep st f row [] Hst) as (_ & _ & Hend).
  destruct fs as [|g fs].
  - change (csv_row [f]) with (escapeCSV f). split.
    + intros rest. rewrite Hf.
      by destruct (csv_read_sep st f row rest Hst) as (_ & -> & _).
    + rewrite <- (app_nil_r (escapeCSV f)), Hf. done.
  - rewrite csv_row_cons.
    destruct (IH (row ++ [f]) ltac:(done)) as [IH1 IH2]. split.
    + intros rest. rewrite <- !app_assoc, Hf.
      change ([c_comma] ++ csv_row (g :: fs) ++ c_newline :: rest)
        with (c_comma :: csv_row (g :: fs) ++ c_newline :: rest).
      destruct (csv_read_sep st f row (csv_row (g :: fs) ++ c_newline :: rest)
                  Hst) as (-> & _ & _).
      rewrite IH1. by rewrite <- app_assoc.
    + rewrite Hf.
      change ([c_comma] ++ csv_row (g :: fs))
        with (c_comma :: csv_row (g :: fs)).
      destruct (csv_read_sep st f row (csv_row (g :: fs)) Hst) as (-> & _ & _).
      rewrite IH2. by rewrite <- app_assoc.
Qed.

Lemma csv_read_text records :
  records <> [] -> Forall (fun r => r <> []) records ->
  csv_read (csv_text records) = records.
Proof.
  unfold csv_read. induction records as [|r rs IH]; intros Hne Hrec; [done|].
  apply Forall_cons in Hrec as [Hr Hrs].
  destruct (csv_read_row r [] Hr) as [Hrow Hlast].
  destruct rs as [|r' rs].
  - exact Hlast.
  - change (csv_text (r :: r' :: rs))
      with (csv_row r ++ [c_newline] ++ csv_text (r' :: rs)).
    change ([c_newline] ++ csv_text (r' :: rs))
      with (c_newline :: csv_text (r' :: rs)).
    rewrite Hrow. f_equal. by apply IH.
Qed.

Section ManifestReadBack.

Variable toLowerCase : jsstring -> jsstring.
Variable path_join : list jsstring -> jsstring.

Lemma manifest_header_columns : manifest_header = csv_row manifest_columns.
Proof. vm_compute. reflexivity. Qed.

Lemma manifest_row_fields w idx e :
  entries w !! idx = Some e ->
  manifest_row toLowerCase (Str.trim (collectionInput w))
    (Str.trim (yearInput w)) (Str.trim (authorsInput w))
    (dest_path toLowerCase path_join w <$> entries w) idx e
  = csv_row (manifest_fields toLowerCase path_join w e).
Proof.
  intros He. unfold manifest_row, csv_row, manifest_fields.
  rewrite list_lookup_fmap, He. reflexivity.
Qed.

Lemma manifest_csv_text w :
  manifest_csv toLowerCase path_join w
  = csv_text (manifest_columns
              :: (manifest_fields toLowerCase path_join w <$> entries w)).
Proof.
  unfold manifest_csv, csv_text. rewrite fmap_cons, <- manifest_header_columns.
  f_equal. f_equal. rewrite <- list_fmap_compose.
  rewrite <- (imap_const (csv_row ∘ manifest_fields toLowerCase path_join w)).
  apply imap_ext. intros i e He. by apply manifest_row_fields.
Qed.

(** X5.  The manifest that [submit] writes, read by a CSV reader (commas
    between fields, line feeds between records, quoted fields with doubled
    quotes), gives back the ten column names and then, for each entry in
    order, its ten values as they are: destination path, source type,
    trimmed collection name, title, trimmed year, trimmed authors, citation
    key, "general", "normal" and an empty notes field, whatever commas,
    quotes or line feeds the values hold. *)
Theorem manifest_read_back (w : World) :
  csv_read (manifest_csv toLowerCase path_join w)
  = manifest_columns
    :: (manifest_fields toLowerCase path_join w <$> entries w).
Proof.
  rewrite manifest_csv_text. apply csv_read_text; [done|].
  constructor; [done|]. apply Forall_fmap, Forall_forall. done.
Qed.

End ManifestReadBack.

(** X6.  Every record of non-empty fields lists written with [escapeCSV],
    commas and line feeds is read back as it was; in particular a single
    field is read back as it was, and two fields with the same escaped text
    are the same field. *)
Theorem escapeCSV_read_back :
  (forall records,
     records <> [] -> Forall (fun r => r <> []) records ->
     csv_read (csv_text records) = records)
  /\ (forall f, csv_read (escapeCSV f) = [[f]])
  /\ (forall f g, escapeCSV f = escapeCSV g -> f = g).
Proof.
  assert (Hone : forall f, csv_read (escapeCSV f) = [[f]]).
  { intros f. apply (csv_read_text [[f]]); [done|]. by repeat constructor. }
  split; [exact csv_read_text|]. split; [exact Hone|].
  intros f g Heq. pose proof (Hone f) as Hf. rewrite Heq, Hone in Hf.
  by injection Hf.
Qed.

(** ** More on the entry list *)

Section EntryListMore.

Variable toLowerCase : jsstring -> jsstring.
Variable path_basename : jsstring -> jsstring -> jsstring.
Variable path_extname : jsstring -> jsstring.

Local Abbreviation addFile_ :=
  (addFile toLowerCase path_basename path_extname).
Local Abbreviation addFiles_ :=
  (addFiles toLowerCase path_basename path_extname).
Local Abbreviation is_pdf_ := (is_pdf toLowerCase).
Local Abbreviation fresh_entry_ f :=
  {| file := f;
     title := titleFromFilename path_basename path_extname (File.name f);
     sourceType := guessSourceType (File.name f) |}.

Lemma addFile_keys_mono es f k :
  k ∈ entry_key <$> es -> k ∈ entry_key <$> addFile_ es f.
Proof.
  intros Hk.
  destruct (addFile_cases toLowerCase path_basename path_extname es f)
    as [[-> _]|(e & -> & _)]; [done|].
  rewrite fmap_app. apply elem_of_app. by left.
Qed.

Lemma addFiles_keys_mono es files k :
  k ∈ entry_key <$> es -> k ∈ entry_key <$> addFiles_ es files.
Proof.
  unfold addFiles. revert es. induction files as [|f files IH]; intros es Hk;
    [done|].
  simpl. by apply IH, addFile_keys_mono.
Qed.

Lemma addFile_adds es f :
  is_pdf_ f = true -> file_key f ∈ entry_key <$> addFile_ es f.
Proof.
  intros Hpdf.
  destruct (addFile_cases toLowerCase path_basename path_extname es f)
    as [[-> [H|H]]|(e & -> & He & _)].
  - congruence.
  - done.
  - rewrite fmap_app. apply elem_of_app. right. apply list_elem_of_singleton.
    unfold entry_key, file_key. by rewrite He.
Qed.

Lemma addFile_known es f :
  is_pdf_ f = false \/ file_key f ∈ entry_key <$> es -> addFile_ es f = es.
Proof.
  intros H.
  destruct (addFile_cases toLowerCase path_basename path_extname es f)
    as [[-> _]|(e & _ & _ & Hpdf & Hk)]; [done|].
  destruct H; [congruence|done].
Qed.

Lemma addFile_fresh es f :
  is_pdf_ f = true -> file_key f ∉ entry_key <$> es ->
  addFile_ es f = es ++ [fresh_entry_ f].
Proof.
  intros Hpdf Hk. unfold addFile. unfold is_pdf in Hpdf. rewrite Hpdf.
  cbn [negb]. destruct (existsb (same_file f) es) eqn:Hex; [|done].
  by apply known_file_key in Hex.
Qed.

Lemma addFiles_keeps_every_pdf_aux es files f :
  f ∈ files -> is_pdf_ f = true ->
  file_key f ∈ entry_key <$> addFiles_ es files.
Proof.
  unfold addFiles. revert es. induction files as [|g files IH]; intros es.
  - by intros ?%elem_of_nil.
  - simpl. intros [->|Hin]%elem_of_cons Hpdf.
    + by apply (addFiles_keys_mono _ files), addFile_adds.
    + by apply IH.
Qed.

(** X7.  After [addFiles], every PDF of the dropped list has its name and
    size among the entries, whether this call added it or it was there
    already, and the entries that were there are still there, in place:
    none is lost. *)
Theorem addFiles_keeps_every_pdf (es : list FileEntry) (files : list File.t) :
  (forall f, f ∈ files -> is_pdf_ f = true ->
             file_key f ∈ entry_key <$> addFiles_ es files)
  /\ (forall i e, es !! i = Some e -> addFiles_ es files !! i = Some e)
  /\ (length (addFiles_ es files)
      <= length es + length (List.filter is_pdf_ files))%nat.
Proof.
  split; [|split].
  - intros f. apply addFiles_keeps_every_pdf_aux.
  - unfold addFiles. revert es.
    induction files as [|g files IH]; intros es i e He; [done|].
    simpl. apply IH.
    destruct (addFile_cases toLowerCase path_basename path_extname es g)
      as [[-> _]|(e' & -> & _)]; [done|].
    rewrite lookup_app_l; [done|]. by eapply lookup_lt_Some.
  - unfold addFiles. revert es.
    induction files as [|g files IH]; intros es; [simpl; lia|].
    cbn [fold_left List.filter]. specialize (IH (addFile_ es g)).
    destruct (addFile_cases toLowerCase path_basename path_extname es g)
      as [[Heq _]|(e' & Heq & _ & Hpdf & _)]; rewrite Heq in IH |- *.
    + destruct (is_pdf_ g); cbn [length]; lia.
    + rewrite Hpdf. rewrite length_app in IH. cbn [length] in *. lia.
Qed.

Lemma addFiles_known es files :
  (forall f, f ∈ files -> is_pdf_ f = true -> file_key f ∈ entry_key <$> es) ->
  addFiles_ es files = es.
Proof.
  unfold addFiles. induction files as [|g files IH]; intros Hall; [done|].
  simpl. rewrite addFile_known.
  - apply IH. intros f Hf. apply Hall. by right.
  - destruct (is_pdf_ g) eqn:Hg; [right|by left].
    apply Hall; [by left|done].
Qed.

(** X8.  Dropping the same files again changes nothing: [addFiles] after
    [addFiles] of the same list leaves the entries, with their edited titles
    and source types, as the first call left them; so does any list whose
    PDFs are all among the entries already. *)
Theorem addFiles_idempotent (es : list FileEntry) (files : list File.t) :
  addFiles_ (addFiles_ es files) files = addFiles_ es files
  /\ addFiles_ es (files ++ files) = addFiles_ es files
  /\ (forall more,
        (forall f, f ∈ more -> is_pdf_ f = true ->
                   file_key f ∈ entry_key <$> es) ->
        addFiles_ es more = es).
Proof.
  assert (H : addFiles_ (addFiles_ es files) files = addFiles_ es files).
  { apply addFiles_known. intros f Hf Hpdf.
    by apply addFiles_keeps_every_pdf_aux. }
  split; [exact H|]. split; [|apply addFiles_known].
  unfold addFiles in *. by rewrite fold_left_app.
Qed.

(** X9.  A file whose entry was removed can be dropped again: it then gets
    a new entry at the end of the list, with the title and the source type
    derived from its name, whatever edits the removed entry carried; the
    other entries keep their order.  Removing at an index past the end
    changes nothing. *)
Theorem remove_then_add (es : list FileEntry) (i : nat) (e : FileEntry) :
  NoDup (entry_key <$> es) ->
  es !! i = Some e ->
  is_pdf_ (file e) = true ->
  (file_key (file e) ∉ entry_key <$> removeEntry i es)
  /\ addFiles_ (removeEntry i es) [file e]
     = take i es ++ drop (S i) es ++ [fresh_entry_ (file e)]
  /\ (forall j, (length es <= j)%nat -> removeEntry j es = es).
Proof.
  intros Hnd He Hpdf.
  assert (Hk : file_key (file e) ∉ entry_key <$> removeEntry i es).
  { unfold removeEntry. rewrite list_fmap_delete.
    assert (Hl : (entry_key <$> es) !! i = Some (entry_key e))
      by (by rewrite list_lookup_fmap, He).
    apply delete_Permutation in Hl. rewrite Hl in Hnd.
    by apply NoDup_cons in Hnd as [? _]. }
  split; [done|]. split.
  - unfold addFiles. cbn [fold_left]. rewrite addFile_fresh by done.
    unfold removeEntry. by rewrite delete_take_drop, <- app_assoc.
  - intros j Hj. unfold removeEntry. rewrite delete_take_drop.
    rewrite take_ge, drop_ge by lia. by rewrite app_nil_r.
Qed.

End EntryListMore.

Lemma remove_then_add_witness :
  addFiles lower_ascii_only simple_basename simple_extname
    (removeEntry 0 (entries sample_world)) [sample_file "Ch. 1.pdf"]
  = take 0 (entries sample_world) ++ drop 1 (entries sample_world)
    ++ [ {| file := sample_file "Ch. 1.pdf";
            title := titleFromFilename simple_basename simple_extname
                       (lit "Ch. 1.pdf");
            sourceType := guessSourceType (lit "Ch. 1.pdf") |} ].
Proof.
  assert (Hnd : NoDup (entry_key <$> entries sample_world)).
  { apply (bool_decide_unpack _). vm_compute. exact I. }
  destruct (remove_then_add lower_ascii_only simple_basename simple_extname
              (entries sample_world) 0 _ Hnd eq_refl eq_refl)
    as (_ & Hadd & _).
  exact Hadd.
Defined.

(** ** [trim] *)

Lemma drop_while_starts P s :
  Re.starts_with P (Str.drop_while P s) = false.
Proof.
  induction s as [|c r IH]; simpl; [done|].
  destruct (P c) eqn:Hc; [done|]. simpl. exact Hc.
Qed.

Lemma drop_while_id P s :
  Re.starts_with P s = false -> Str.drop_while P s = s.
Proof. destruct s as [|c r]; simpl; [done|]. by intros ->. Qed.

Lemma trim_ends s :
  Re.starts_with Char.is_space (Str.trim s) = false
  /\ Re.starts_with Char.is_space (rev (Str.trim s)) = false.
Proof.
  unfold Str.trim. set (u := Str.drop_while Char.is_space s).
  split.
  - destruct (drop_while_split Char.is_space (rev u)) as (pre & Hsplit & _).
    set (v := Str.drop_while Char.is_space (rev u)) in *.
    assert (Hu : u = rev v ++ rev pre).
    { rewrite <- (rev_involutive u), Hsplit. apply rev_app_distr. }
    pose proof (drop_while_starts Char.is_space s) as Hhead.
    fold u in Hhead. rewrite Hu in Hhead.
    by destruct (rev v).
  - rewrite rev_involutive. apply drop_while_starts.
Qed.

Lemma trim_fixed s :
  Re.starts_with Char.is_space s = false ->
  Re.starts_with Char.is_space (rev s) = false ->
  Str.trim s = s.
Proof.
  intros H1 H2. unfold Str.trim.
  by rewrite (drop_while_id _ s), (drop_while_id _ (rev s)), rev_involutive.
Qed.

Lemma trim_idempotent s : Str.trim (Str.trim s) = Str.trim s.
Proof. destruct (trim_ends s). by apply trim_fixed. Qed.

(** ** Saved collections, pre-filling and auto-filling *)

Lemma upsert_elem col l c : c ∈ upsert col l -> c = col \/ c ∈ l.
Proof.
  unfold upsert. destruct (list_find _ l) as [[idx c']|].
  - intros (j & Hj)%list_elem_of_lookup_1.
    apply list_lookup_insert_Some in Hj as [(_ & -> & _)|[_ Hj]]; [by left|].
    right. by eapply list_elem_of_lookup_2.
  - intros [Hin | Hin]%elem_of_app; [by right|].
    apply list_elem_of_singleton in Hin. by left.
Qed.

Lemma upsert_find col l :
  exists i,
    list_find (fun c => sc_name c = sc_name col) (upsert col l)
    = Some (i, col).
Proof.
  unfold upsert.
  destruct (list_find _ l) as [[idx c]|] eqn:Hf.
  - apply list_find_Some in Hf as (Hl & Hn & Hbefore).
    exists idx. apply list_find_Some. split; [|split; [done|]].
    + apply list_lookup_insert_eq. by eapply lookup_lt_Some.
    + intros j y Hj Hlt. rewrite list_lookup_insert_ne in Hj by lia.
      by eapply Hbefore.
  - apply list_find_None in Hf. rewrite Forall_forall in Hf.
    exists (length l). apply list_find_Some. split; [|split; [done|]].
    + by rewrite lookup_app_r, Nat.sub_diag.
    + intros j y Hj Hlt. rewrite lookup_app_l in Hj by done.
      apply Hf. by eapply list_elem_of_lookup_2.
Qed.

Lemma upsert_twice col l : upsert col (upsert col l) = upsert col l.
Proof.
  destruct (upsert_find col l) as [i Hi]. unfold upsert at 1. rewrite Hi.
  apply list_find_Some in Hi as (Hl & _ & _). by apply list_insert_id.
Qed.

Section SavedProps.

Variable toLowerCase : jsstring -> jsstring.
Variable path_join : list jsstring -> jsstring.
Variable io_error : list Effect -> Effect -> option jsstring.
Variable spawn : SpawnRequest -> list ProcEvent.
Variable parse_sources :
  jsstring -> jsstring + (jsstring + jsstring * jsstring).
Variable render_error : World -> option jsstring.

Local Abbreviation submit_ :=
  (submit toLowerCase path_join io_error spawn parse_sources render_error).
Local Abbreviation submit_succeeds_ :=
  (submit_succeeds toLowerCase path_join io_error spawn parse_sources
     render_error).
Local Abbreviation reachable_ :=
  (reachable toLowerCase path_join io_error spawn parse_sources
     render_error).
Local Abbreviation saved_ w := (savedCollections (settings w)).

Lemma validate_None_inputs w :
  validate w = None ->
  entries w <> [] /\ Str.trim (collectionInput w) <> []
  /\ Str.trim (yearInput w) <> [].
Proof.
  unfold validate. destruct (entries w); [done|].
  destruct (Str.trim (collectionInput w)); [done|].
  destruct (Str.trim (yearInput w)); done.
Qed.

Lemma new_collection_well_saved w :
  validate w = None -> well_saved (new_collection w).
Proof.
  intros (_ & Hc & Hy)%validate_None_inputs. unfold well_saved, new_collection.
  simpl. by rewrite !trim_idempotent.
Qed.

Lemma submit_saved_cases nowISO dryRun w :
  saved_ (submit_ nowISO dryRun w) = saved_ w
  \/ (validate w = None
      /\ saved_ (submit_ nowISO dryRun w) = upsert (new_collection w) (saved_ w)).
Proof.
  destruct (validate w) as [m|] eqn:Hv.
  - left. unfold submit. rewrite Hv.
    pose proof (validate_not_empty w) as Hne. rewrite Hv in Hne.
    by destruct m.
  - destruct (submit_unfold toLowerCase path_join io_error spawn parse_sources
                render_error nowISO dryRun w Hv)
      as [-> _].
    destruct (perform_all _ _ _) as [l [err|]].
    + unfold after_prepare. destruct (bool_decide _); [right|left]; done.
    + right. split; [done|]. unfold after_prepare.
      by rewrite runIngest_settings.
Qed.

(** X10.  In every world reached from settings without saved collections,
    that is from the default settings, each saved collection has a
    name and a year that are not empty, and its name, year and authors have
    no white space at either end; so a modal that was pre-filled from the
    saved collections passes validation as soon as it holds files that all
    have a title. *)
Theorem saved_collections_well_formed (w : World) :
  reachable_ w ->
  Forall well_saved (saved_ w)
  /\ (saved_ w <> [] ->
      forall es, es <> [] ->
        Forall (fun e => Str.trim (title e) <> []) es ->
        validate (with_entries es (openModal w)) = None).
Proof.
  intros Hreach.
  assert (Hall : Forall well_saved (saved_ w)).
  { induction Hreach as [w Hw|w w' _ IH Hw|nowISO dryRun w _ IH].
    - rewrite Hw. constructor.
    - by rewrite Hw.
    - destruct (submit_saved_cases nowISO dryRun w) as [->|[Hv ->]]; [done|].
      apply Forall_forall. intros c [-> | Hc]%upsert_elem.
      + by apply new_collection_well_saved.
      + rewrite Forall_forall in IH. by apply IH. }
  split; [done|]. intros Hne es Hes Htitles.
  unfold openModal. destruct (last (saved_ w)) as [c|] eqn:Hlast.
  2:{ by apply last_None in Hlast. }
  apply last_Some_elem_of in Hlast. rewrite Forall_forall in Hall.
  destruct (Hall c Hlast) as (Hn & Htn & Hy & Hty & _).
  unfold validate. cbn [with_entries with_inputs entries collectionInput
                         yearInput].
  destruct es as [|e es']; [done|]. rewrite Htn, Hty.
  destruct (SavedCollection.name c); [done|].
  destruct (SavedCollection.year c); [done|].
  by apply missing_title_None.
Qed.

(** X11.  After a successful [submit], typing the collection name again,
    with any white space around it, fills the year and the authors with the
    trimmed values that were submitted: the record found by name is the one
    that was saved. *)
Theorem autofill_after_submit (nowISO : jsstring) (dryRun : bool)
    (w w2 : World) (value : jsstring) :
  submit_succeeds_ nowISO dryRun w = true ->
  saved_ w2 = saved_ (submit_ nowISO dryRun w) ->
  Str.trim value = Str.trim (collectionInput w) ->
  collectionInput (onCollectionInput value w2) = value
  /\ yearInput (onCollectionInput value w2) = Str.trim (yearInput w)
  /\ authorsInput (onCollectionInput value w2) = Str.trim (authorsInput w).
Proof.
  intros Hok Hsaved Hvalue. unfold onCollectionInput.
  rewrite Hsaved, Hvalue.
  rewrite (submit_succeeds_settings toLowerCase path_join io_error spawn
             parse_sources render_error _ _ _ Hok).
  cbn [savedCollections with_savedCollections].
  destruct (upsert_find (new_collection w) (saved_ w)) as [i Hi].
  cbn [SavedCollection.name new_collection] in Hi. rewrite Hi. done.
Qed.

(** X12.  A modal opened after a successful [submit] has no entry and is
    pre-filled from the last saved collection.  That is the submitted one
    when its name was not saved before, and when the first record of that
    name was the last of the list.  When the first record of that name was
    not the last, the modal is pre-filled with the record that was last
    before, and not with the collection just submitted; that record has
    another name when the saved names are pairwise distinct. *)
Theorem prefill_after_submit (nowISO : jsstring) (dryRun : bool) (w : World) :
  submit_succeeds_ nowISO dryRun w = true ->
  let n := Str.trim (collectionInput w) in
  let w' := openModal (submit_ nowISO dryRun w) in
  entries w' = []
  /\ ((forall c, c ∈ saved_ w -> sc_name c <> n) ->
      collectionInput w' = n
      /\ yearInput w' = Str.trim (yearInput w)
      /\ authorsInput w' = Str.trim (authorsInput w))
  /\ (forall i c,
        saved_ w !! i = Some c -> sc_name c = n ->
        (forall j c', (j < i)%nat -> saved_ w !! j = Some c' ->
                      sc_name c' <> n) ->
        (S i = length (saved_ w) ->
         collectionInput w' = n
         /\ yearInput w' = Str.trim (yearInput w)
         /\ authorsInput w' = Str.trim (authorsInput w))
        /\ ((S i < length (saved_ w))%nat ->
            exists c',
              last (saved_ w) = Some c'
              /\ collectionInput w' = sc_name c'
              /\ yearInput w' = SavedCollection.year c'
              /\ authorsInput w' = SavedCollection.authors c'
              /\ (NoDup (sc_name <$> saved_ w) -> sc_name c' <> n))).
Proof.
  intros Hok n w'. unfold w', openModal.
  rewrite (submit_succeeds_settings toLowerCase path_join io_error spawn
             parse_sources render_error _ _ _ Hok).
  cbn [savedCollections with_savedCollections].
  split; [by destruct (last _)|]. split.
  - intros Hfresh. rewrite upsert_append by done. rewrite last_snoc. done.
  - intros i c Hi Hc Hfirst.
    rewrite (upsert_first _ _ i c) by done. split.
    + intros Hlen.
      assert (Hlast : last (<[i:=new_collection w]> (savedCollections (settings w)))
                      = Some (new_collection w)).
      { rewrite last_lookup, length_insert, <- Hlen. simpl.
        apply list_lookup_insert_eq. lia. }
      by rewrite Hlast.
    + intros Hlt.
      assert (Hsame : last (<[i:=new_collection w]> (savedCollections (settings w)))
                      = last (savedCollections (settings w))).
      { rewrite !last_lookup, length_insert. apply list_lookup_insert_ne. lia. }
      rewrite Hsame.
      destruct (last (savedCollections (settings w))) as [c'|] eqn:Hlast.
      2:{ apply last_None in Hlast. rewrite Hlast in Hi. done. }
      exists c'. split_and!; try done.
      intros Hnd Hc'. rewrite last_lookup in Hlast.
      assert (i = pred (length (savedCollections (settings w)))); [|lia].
      apply (NoDup_lookup (sc_name <$> savedCollections (settings w)) _ _ n);
        [done|..].
      * by rewrite list_lookup_fmap, Hi, <- Hc.
      * by rewrite list_lookup_fmap, Hlast, <- Hc'.
Qed.

(** X13.  Submitting again the data of a collection that is saved as
    submitted leaves the saved collections as they are. *)
Theorem resubmit_same_collection (nowISO : jsstring) (dryRun : bool)
    (w0 w : World) :
  saved_ w = upsert (new_collection w0) (saved_ w0) ->
  new_collection w = new_collection w0 ->
  submit_succeeds_ nowISO dryRun w = true ->
  saved_ (submit_ nowISO dryRun w) = saved_ w.
Proof.
  intros Hsaved Hcol Hok.
  rewrite (submit_succeeds_settings toLowerCase path_join io_error spawn
             parse_sources render_error _ _ _ Hok).
  cbn [savedCollections with_savedCollections].
  rewrite Hsaved, Hcol. apply upsert_twice.
Qed.

End SavedProps.

(** ** The promise of [runPipelineCmd], once more *)

Lemma on_event_pending evs l :
  promise l = Pending ->
  (promise (fold_left on_event evs l) = Pending
   <-> forallb is_data evs = true).
Proof.
  revert l. induction evs as [|ev evs IH]; intros l Hl; [done|].
  cbn [fold_left forallb]. destruct ev as [chunk|chunk|code|err].
  - by rewrite IH.
  - by rewrite IH.
  - split; [|done]. rewrite on_event_settled.
    + simpl. unfold settle. rewrite Hl. by destruct (bool_decide _).
    + simpl. unfold settle. rewrite Hl. by destruct (bool_decide _).
  - split; [|done]. rewrite on_event_settled.
    + simpl. unfold settle. by rewrite Hl.
    + simpl. unfold settle. by rewrite Hl.
Qed.

(** X14.  The promise of [runPipelineCmd] stays pending exactly as long as
    the child process has neither closed nor failed (there is no timeout),
    and once it is settled nothing the process emits afterwards changes
    it. *)
Theorem runPipelineCmd_settles_once
    (path_join : list jsstring -> jsstring)
    (spawn spawn' : SpawnRequest -> list ProcEvent)
    (s : Settings) (args : list jsstring) :
  (runPipelineCmd path_join spawn s args = Pending
   <-> forallb is_data (spawn (spawn_request path_join s args)) = true)
  /\ (forall more,
        spawn' (spawn_request path_join s args)
        = spawn (spawn_request path_join s args) ++ more ->
        runPipelineCmd path_join spawn s args <> Pending ->
        runPipelineCmd path_join spawn' s args
        = runPipelineCmd path_join spawn s args).
Proof.
  unfold runPipelineCmd. cbv zeta. split.
  - by apply on_event_pending.
  - intros more -> Hset. rewrite fold_left_app. by apply on_event_settled.
Qed.

(** ** The refresh timer *)





(** ** Slugs and citation keys without assumptions on lower-casing *)

Section SlugMore.

Variable toLowerCase : jsstring -> jsstring.
Variable path_join : list jsstring -> jsstring.

Lemma slugify_word_or_hyphen x c :
  c ∈ slugify toLowerCase x -> Char.is_word c = true \/ c = c_hyphen.
Proof.
  unfold slugify, Str.replace_runs, Str.delete_all.
  intros H%strip_edge_hyphens_in.
  apply replace_runs_from_in in H as [H|[H _]].
  { apply list_elem_of_singleton in H as ->. by right. }
  apply replace_runs_from_in in H as [H|[H Hsp]].
  { apply list_elem_of_singleton in H as ->. by right. }
  apply filter_elem_of in H as [_ Hk]. rewrite negb_involutive in Hk.
  unfold Char.is_slug_kept in Hk. rewrite Hsp, orb_false_r in Hk.
  apply orb_true_iff in Hk as [?|?%is_hyphen_eq]; auto.
Qed.

Lemma slugify_hyphens_single x :
  hyphens_single_from true (slugify toLowerCase x) = true.
Proof.
  unfold slugify. apply strip_edge_hyphens_single, collapse_hyphens_single.
Qed.

(** X16.  The slug of a name is empty exactly when the lower-cased name has
    no word character, as for a name made of punctuation; the destination
    directory of [submit] is then the [raw-pdfs] directory joined with an
    empty segment, and the manifest name starts with a hyphen. *)
Theorem slugify_empty (x : jsstring) :
  (slugify toLowerCase x = []
   <-> List.filter Char.is_word (toLowerCase x) = [])
  /\ (forall nowISO w,
        List.filter Char.is_word
          (toLowerCase (Str.trim (collectionInput w))) = [] ->
        dest_dir toLowerCase path_join w
        = path_join [pipelineDir (settings w); lit "raw-pdfs"; []]
        /\ manifest_name toLowerCase nowISO w
           = [c_hyphen] ++ manifest_stamp nowISO ++ lit ".manifest.csv").
Proof.
  assert (Hiff : forall y, slugify toLowerCase y = []
                 <-> List.filter Char.is_word (toLowerCase y) = []).
  { intros y. rewrite <- slugify_word_chars. split; [by intros ->|].
    intros Hnone. pose proof (slugify_hyphens_single y) as Hs.
    destruct (slugify toLowerCase y) as [|c r] eqn:Hsl; [done|].
    assert (Hc : c ∈ slugify toLowerCase y) by (rewrite Hsl; by left).
    apply slugify_word_or_hyphen in Hc as [Hw| ->].
    - simpl in Hnone. by rewrite Hw in Hnone.
    - done. }
  split; [apply Hiff|]. intros nowISO w Hw. apply Hiff in Hw.
  unfold dest_dir, manifest_name, collection_slug. by rewrite Hw.
Qed.

Lemma no_special_escape s :
  (forall c, c ∈ s -> Char.is_word c = true \/ c = c_hyphen) ->
  escapeCSV s = s.
Proof.
  intros Hs. apply escapeCSV_plain, forallb_elem_of. intros c Hc.
  apply negb_true_iff. destruct (Hs c Hc) as [Hw| ->]; [|done].
  revert Hw. unfold is_csv_special. char_unfold. bool_arith.
Qed.

(** X17.  A citation key is made of word characters and hyphens only, so
    that [escapeCSV] leaves it as it is, and so it does the source type:
    these two columns of the manifest are never quoted. *)
Theorem citation_key_never_quoted (collectionName title : jsstring)
    (t : SourceType) :
  (forall c, c ∈ buildCitationKey toLowerCase collectionName title ->
             Char.is_word c = true \/ c = c_hyphen)
  /\ escapeCSV (buildCitationKey toLowerCase collectionName title)
     = buildCitationKey toLowerCase collectionName title
  /\ escapeCSV (SourceType_text t) = SourceType_text t.
Proof.
  assert (Hkey : forall c,
    c ∈ buildCitationKey toLowerCase collectionName title ->
    Char.is_word c = true \/ c = c_hyphen).
  { unfold buildCitationKey, Str.slice0. cbv zeta. intros c.
    rewrite !elem_of_app. intros [H|[H|H]].
    - by apply slugify_word_or_hyphen in H.
    - apply list_elem_of_singleton in H. by right.
    - apply elem_of_take in H as (i & H & _).
      apply list_elem_of_lookup_2 in H.
      by apply slugify_word_or_hyphen in H. }
  split; [exact Hkey|]. split; [by apply no_special_escape|].
  by destruct t.
Qed.

(** X18.  The time stamp in the manifest name is the first 19 characters of
    the ISO time with colons and periods turned into hyphens: it has at
    most 19 characters and holds neither colon nor period.  Two submits of
    the same collection whose ISO times agree on their first 19 characters,
    that is within the same second, write their manifest to the same
    path. *)
Theorem manifest_stamp_seconds (iso : jsstring) :
  manifest_stamp iso = stamp_char <$> take 19 iso
  /\ length (manifest_stamp iso) = Nat.min 19 (length iso)
  /\ (forall c, c ∈ manifest_stamp iso -> c <> 58 /\ c <> 46)
  /\ (forall iso' w,
        take 19 iso' = take 19 iso ->
        manifest_path toLowerCase path_join iso' w
        = manifest_path toLowerCase path_join iso w).
Proof.
  assert (Hmap : forall s,
    Str.replace_each (fun c => (c =? 58) || (c =? 46)) [c_hyphen] s
    = stamp_char <$> s).
  { unfold Str.replace_each, stamp_char.
    induction s as [|c s IH]; [done|]. cbn [flat_map fmap list_fmap].
    rewrite IH. by destruct ((c =? 58) || (c =? 46)). }
  assert (Hstamp : forall s, manifest_stamp s = stamp_char <$> take 19 s).
  { intros s. unfold manifest_stamp, Str.slice0. by rewrite Hmap, fmap_take. }
  split; [apply Hstamp|]. split; [|split].
  - by rewrite Hstamp, length_fmap, length_take.
  - intros c. rewrite Hstamp. intros (d & -> & _)%list_elem_of_fmap.
    unfold stamp_char.
    destruct (N.eqb_spec d 58) as [->|H58]; [done|].
    destruct (N.eqb_spec d 46) as [->|H46]; [done|]. done.
  - intros iso' w Heq. unfold manifest_path, manifest_name.
    by rewrite !Hstamp, Heq.
Qed.

End SlugMore.

(** ** The classifier and the case of letters *)

Ltac bool_eq_arith :=
  match goal with
  | |- ?a = ?b =>
      let Ha := fresh in let Hb := fresh in
      destruct a eqn:Ha, b eqn:Hb; try reflexivity; exfalso;
      revert Ha Hb; char_unfold; bool_arith
  end.

Lemma lower_ascii_upper c :
  Char.is_upper c = true ->
  Char.lower_ascii c = c + 32
  /\ Char.is_lower (c + 32) = true /\ Char.is_lower c = false
  /\ Char.is_ascii c = true /\ Char.is_ascii (c + 32) = true.
Proof.
  intros Hu. unfold Char.lower_ascii. rewrite Hu. split; [done|].
  revert Hu. char_unfold. bool_arith.
Qed.

Lemma lower_ascii_not_upper c :
  Char.is_upper c = false -> Char.lower_ascii c = c.
Proof. intros Hu. unfold Char.lower_ascii. by rewrite Hu. Qed.

Lemma eq_ci_lower p c : Char.eq_ci p (Char.lower_ascii c) = Char.eq_ci p c.
Proof.
  destruct (Char.is_upper c) eqn:Hu.
  - destruct (lower_ascii_upper c Hu) as (-> & Hl & Hl' & Ha & Ha').
    unfold Char.eq_ci, Char.canonicalize_ascii at 1 3.
    by rewrite Hl, Hl', Ha, Ha', N.add_sub.
  - by rewrite lower_ascii_not_upper.
Qed.

Lemma is_word_lower c : Char.is_word (Char.lower_ascii c) = Char.is_word c.
Proof.
  destruct (Char.is_upper c) eqn:Hu; [|by rewrite lower_ascii_not_upper].
  destruct (lower_ascii_upper c Hu) as (-> & Hl & _).
  unfold Char.is_word. by rewrite Hl, Hu, orb_true_r.
Qed.

Lemma is_digit_lower c : Char.is_digit (Char.lower_ascii c) = Char.is_digit c.
Proof.
  destruct (Char.is_upper c) eqn:Hu; [|by rewrite lower_ascii_not_upper].
  destruct (lower_ascii_upper c Hu) as (-> & _). revert Hu. clear.
  intros Hu. bool_eq_arith.
Qed.

Lemma is_chapter_sep_lower c :
  Char.is_chapter_sep (Char.lower_ascii c) = Char.is_chapter_sep c.
Proof.
  destruct (Char.is_upper c) eqn:Hu; [|by rewrite lower_ascii_not_upper].
  destruct (lower_ascii_upper c Hu) as (-> & _). revert Hu. clear.
  intros Hu. bool_eq_arith.
Qed.

Lemma match_ci_lower w s :
  Re.match_ci w (lower_ascii_only s)
  = lower_ascii_only <$> Re.match_ci w s.
Proof.
  revert s. induction w as [|p w IH]; intros s; [done|].
  destruct s as [|c s]; [done|]. simpl. rewrite eq_ci_lower.
  destruct (Char.eq_ci p c); [apply IH|done].
Qed.

Lemma starts_with_lower (P : jschar -> bool) s :
  (forall c, P (Char.lower_ascii c) = P c) ->
  Re.starts_with P (lower_ascii_only s) = Re.starts_with P s.
Proof. intros HP. destruct s; simpl; [done|apply HP]. Qed.

Lemma drop_while_lower (P : jschar -> bool) s :
  (forall c, P (Char.lower_ascii c) = P c) ->
  Str.drop_while P (lower_ascii_only s)
  = lower_ascii_only (Str.drop_while P s).
Proof.
  intros HP. induction s as [|c s IH]; [done|]. simpl. rewrite HP.
  by destruct (P c).
Qed.

Lemma seps_then_digit_lower s :
  Re.seps_then_digit (lower_ascii_only s) = Re.seps_then_digit s.
Proof.
  unfold Re.seps_then_digit.
  rewrite drop_while_lower by apply is_chapter_sep_lower.
  apply starts_with_lower, is_digit_lower.
Qed.

Lemma test_ch_number_lower s :
  Re.test_ch_number (lower_ascii_only s) = Re.test_ch_number s.
Proof.
  unfold Re.test_ch_number. rewrite match_ci_lower.
  destruct (Re.match_ci (lit "ch") s) as [r|]; [|done].
  cbn [fmap option_fmap option_map]. rewrite match_ci_lower.
  destruct (Re.match_ci (lit "apter") r) as [r'|];
    cbn [fmap option_fmap option_map]; by rewrite !seps_then_digit_lower.
Qed.

Lemma test_word_from_lower w prev s :
  Re.test_word_from w prev (lower_ascii_only s) = Re.test_word_from w prev s.
Proof.
  revert prev. induction s as [|c s IH]; intros prev.
  - done.
  - cbn [lower_ascii_only List.map Re.test_word_from].
    change (List.map Char.lower_ascii s) with (lower_ascii_only s).
    rewrite IH, is_word_lower. f_equal.
    unfold Re.word_here. f_equal.
    change (Char.lower_ascii c :: lower_ascii_only s)
      with (lower_ascii_only (c :: s)).
    rewrite match_ci_lower. destruct (Re.match_ci w (c :: s)) as [r|]; [|done].
    cbn [fmap option_fmap option_map].
    by rewrite (starts_with_lower _ _ is_word_lower).
Qed.

(** X19.  The classification does not depend on the case of the ASCII
    letters of the file name: a name and its lower-cased form are
    classified alike. *)
Theorem guessSourceType_ignores_case (filename : jsstring) :
  guessSourceType (lower_ascii_only filename) = guessSourceType filename.
Proof.
  unfold guessSourceType, Re.test_word.
  by rewrite test_ch_number_lower, !test_word_from_lower.
Qed.

(** ** The sample session *)

Lemma submit_failure_witness :
  exists err,
    notices
      (submit lower_ascii_only simple_join refuse_manifest quiet_process
         empty_summary render_ok sample_now false sample_world)
    = [lit "Failed to prepare ingest: " ++ err]
    /\ ingests
         (submit lower_ascii_only simple_join refuse_manifest quiet_process
            empty_summary render_ok sample_now false sample_world)
       = []
    /\ settings
         (submit lower_ascii_only simple_join refuse_manifest quiet_process
            empty_summary render_ok sample_now false sample_world)
       = DEFAULT_SETTINGS.
Proof.
  destruct (submit_failure lower_ascii_only simple_join refuse_manifest
              quiet_process empty_summary render_ok sample_now false
              sample_world eq_refl eq_refl)
    as (l & next & rest & err & _ & _ & _ & _ & Hn & Hi & _).
  exists err. split; [exact Hn|]. split; [exact Hi|]. reflexivity.
Defined.

Lemma saved_collections_well_formed_witness :
  Forall well_saved
    (savedCollections
       (settings
          (submit lower_ascii_only simple_join no_io_error quiet_process
             empty_summary render_ok sample_now false sample_world))).
Proof.
  apply (saved_collections_well_formed lower_ascii_only simple_join
           no_io_error quiet_process empty_summary render_ok).
  apply reach_submit, reach_start. reflexivity.
Defined.

Lemma autofill_after_submit_witness :
  yearInput
    (onCollectionInput (lit "Gray's Anatomy  ")
       (submit lower_ascii_only simple_join no_io_error quiet_process
          empty_summary render_ok sample_now false sample_world))
  = lit "2023".
Proof.
  destruct (autofill_after_submit lower_ascii_only simple_join no_io_error
              quiet_process empty_summary render_ok sample_now false
              sample_world
              (submit lower_ascii_only simple_join no_io_error quiet_process
                 empty_summary render_ok sample_now false sample_world)
              (lit "Gray's Anatomy  ") eq_refl eq_refl eq_refl)
    as (_ & Hy & _).
  rewrite Hy. reflexivity.
Defined.

Lemma prefill_after_submit_witness :
  collectionInput
    (openModal
       (submit lower_ascii_only simple_join no_io_error quiet_process
          empty_summary render_ok sample_now false library_world))
  = lit "Netter Atlas".
Proof.
  destruct (prefill_after_submit lower_ascii_only simple_join no_io_error
              quiet_process empty_summary render_ok sample_now false
              library_world eq_refl)
    as (_ & _ & Hold).
  destruct (Hold 0%nat gray_1858 eq_refl eq_refl) as [_ Hstale].
  { intros j c' Hj. lia. }
  destruct Hstale as (c' & Hlast & Hc & _).
  { simpl. lia. }
  rewrite Hc. injection Hlast as <-. reflexivity.
Defined.

Lemma resubmit_same_collection_witness :
  savedCollections
    (settings
       (submit lower_ascii_only simple_join no_io_error quiet_process
          empty_summary render_ok sample_now true sample_world_again))
  = savedCollections (settings sample_world_again).
Proof.
  apply (resubmit_same_collection lower_ascii_only simple_join no_io_error
           quiet_process empty_summary render_ok sample_now true sample_world
           sample_world_again);
    reflexivity.
Defined.

(** ** Citation keys and destinations in the manifest *)

Lemma take_while_app_stop (P : jschar -> bool) t sp :
  forallb (fun c => negb (P c)) sp = true ->
  take_while P (t ++ sp) = take_while P t.
Proof.
  intros Hsp. induction t as [|c t IH]; simpl.
  - destruct sp as [|d sp]; [done|]. simpl in *.
    apply andb_true_iff in Hsp as [Hd _]. apply negb_true_iff in Hd.
    by rewrite Hd.
  - by rewrite IH.
Qed.

Lemma trim_split s :
  exists sp, Str.drop_while Char.is_space s = Str.trim s ++ sp
             /\ forallb Char.is_space sp = true.
Proof.
  unfold Str.trim. set (u := Str.drop_while Char.is_space s).
  destruct (drop_while_split Char.is_space (rev u)) as (pre & Hsplit & Hpre).
  exists (rev pre). split.
  - rewrite <- (rev_involutive u) at 1. rewrite Hsplit at 1.
    apply rev_app_distr.
  - rewrite forallb_forall in Hpre |- *. intros c Hc. apply Hpre.
    by apply in_rev.
Qed.

Lemma first_token_trim s : take_while non_space (Str.trim s) = first_token s.
Proof.
  unfold first_token. destruct (trim_split s) as (sp & -> & Hsp).
  symmetry. apply take_while_app_stop.
  rewrite forallb_forall in Hsp |- *. intros c Hc. unfold non_space.
  by rewrite (Hsp c Hc).
Qed.

Section ManifestKeys.

Variable toLowerCase : jsstring -> jsstring.
Variable path_join : list jsstring -> jsstring.
Variable path_basename : jsstring -> jsstring -> jsstring.
Variable path_extname : jsstring -> jsstring.

Local Abbreviation addFiles_ :=
  (addFiles toLowerCase path_basename path_extname).
Local Abbreviation fresh_entry_ f :=
  {| file := f;
     title := titleFromFilename path_basename path_extname (File.name f);
     sourceType := guessSourceType (File.name f) |}.

(** X20.  In every row of the manifest the citation key is the slug of the
    first white-space-delimited token of the collection name as typed
    (white space around the name does not matter, since [submit] trims it),
    a hyphen, and the first 60 characters of the slug of the title. *)
Theorem manifest_citation_key (w : World) (e : FileEntry) :
  manifest_fields toLowerCase path_join w e !! 6%nat
  = Some (slugify toLowerCase (first_token (collectionInput w))
          ++ [c_hyphen] ++ Str.slice0 60 (slugify toLowerCase (title e))).
Proof.
  unfold manifest_fields. cbn [lookup list_lookup].
  unfold buildCitationKey, Str.split_runs. cbv zeta.
  destruct (split_runs_from_head Char.is_space []
              (Str.trim (collectionInput w))) as [rest ->].
  cbn [app]. fold non_space. by rewrite first_token_trim.
Qed.

(** X21.  Entries are told apart by name and size, destinations by name
    only: a PDF dropped with the name of an entry already there and a size
    that no entry of that name has is added as a new entry, [submit] writes
    it to the destination of the older entry, after it, and the rows of
    both entries carry the same source path. *)
Theorem same_name_same_destination (es : list FileEntry) (e : FileEntry)
    (f : File.t) (w : World) :
  e ∈ es ->
  File.name (file e) = File.name f ->
  is_pdf toLowerCase f = true ->
  file_key f ∉ entry_key <$> es ->
  addFiles_ es [f] = es ++ [fresh_entry_ f]
  /\ dest_path toLowerCase path_join w (fresh_entry_ f)
     = dest_path toLowerCase path_join w e
  /\ copy_effects toLowerCase path_join w (es ++ [fresh_entry_ f])
     = copy_effects toLowerCase path_join w es
       ++ [ReadFile f;
           WriteFile (dest_path toLowerCase path_join w e)
             (Bytes (File.content f))]
  /\ WriteFile (dest_path toLowerCase path_join w e)
       (Bytes (File.content (file e)))
     ∈ copy_effects toLowerCase path_join w es
  /\ manifest_fields toLowerCase path_join w (fresh_entry_ f) !! 0%nat
     = manifest_fields toLowerCase path_join w e !! 0%nat.
Proof.
  intros Hin Hname Hpdf Hkey.
  assert (Hdest : dest_path toLowerCase path_join w (fresh_entry_ f)
                  = dest_path toLowerCase path_join w e).
  { unfold dest_path. simpl. by rewrite Hname. }
  split; [|split; [done|split; [|split]]].
  - unfold addFiles. cbn [fold_left].
    by apply (addFile_fresh toLowerCase path_basename path_extname).
  - unfold copy_effects. rewrite flat_map_app. cbn [flat_map app].
    fold (dest_path toLowerCase path_join w (fresh_entry_ f)).
    by rewrite Hdest.
  - unfold copy_effects. apply list_elem_of_In, in_flat_map.
    exists e. split; [by apply list_elem_of_In|]. right. by left.
  - unfold manifest_fields. cbn [lookup list_lookup]. by rewrite Hdest.
Qed.

End ManifestKeys.

Lemma same_name_same_destination_witness :
  addFiles lower_ascii_only simple_basename simple_extname
    (entries sample_world) [File.mk (lit "notes.pdf") 9 [37; 80]]
  = entries sample_world
    ++ [ {| file := File.mk (lit "notes.pdf") 9 [37; 80];
            title := titleFromFilename simple_basename simple_extname
                       (lit "notes.pdf");
            sourceType := guessSourceType (lit "notes.pdf") |} ].
Proof.
  assert (Hin : {| file := sample_file "notes.pdf";
                   title := lit "notes"; sourceType := paper |}
                ∈ entries sample_world).
  { apply list_elem_of_In. vm_compute. auto. }
  assert (Hkey : file_key (File.mk (lit "notes.pdf") 9 [37; 80])
                 ∉ entry_key <$> entries sample_world).
  { apply (bool_decide_unpack _). vm_compute. exact I. }
  destruct (same_name_same_destination lower_ascii_only simple_join
              simple_basename simple_extname (entries sample_world) _
              (File.mk (lit "notes.pdf") 9 [37; 80]) sample_world
              Hin eq_refl eq_refl Hkey) as (Hadd & _).
  exact Hadd.
Defined.

(** ** The notices of [runIngest] *)

Lemma runPipelineCmd_run path_join spawn s args data ev rest :
  forallb is_data data = true ->
  is_data ev = false ->
  spawn (spawn_request path_join s args) = data ++ ev :: rest ->
  runPipelineCmd path_join spawn s args
  = promise (on_event (mkListener (stdout_of data) (stderr_of data) Pending)
               ev).
Proof.
  intros Hd Hnd Hev. unfold runPipelineCmd. cbv zeta.
  rewrite Hev, fold_left_app, (on_event_data data) by done. simpl.
  destruct ev; simpl; try done.
  - rewrite on_event_settled; [done|]. destruct (bool_decide _); done.
  - by rewrite on_event_settled.
Qed.

Lemma error_text_exit err code :
  error_text
    (mkError (or_else err (lit "Process exited with code " ++ code_text code)))
  = lit "Error: "
    ++ or_else err (lit "Process exited with code " ++ code_text code).
Proof. unfold error_text. by destruct err. Qed.

Section IngestNotices.

Variable path_join : list jsstring -> jsstring.
Variable spawn : SpawnRequest -> list ProcEvent.
Variable parse_sources :
  jsstring -> jsstring + (jsstring + jsstring * jsstring).
Variable render_error : World -> option jsstring.

Local Abbreviation runIngest_ :=
  (runIngest path_join spawn parse_sources render_error).

(** X22.  [runIngest] changes nothing but the notices and the ingests: it
    records one ingest and shows the notice of its start, then at most two
    more.  While the child process has neither closed nor failed, none
    follows.  When the process closes with a status that is not zero, one
    follows: "Ingest failed: Error: " and the trimmed standard error or,
    when that is empty, "Process exited with code <code>".  When it closes
    with status zero and its output is not understood, one follows with
    what was thrown.  When it closes with status zero on a dry run and its
    output is understood, "Dry-run complete" follows whatever the output
    holds, and after it an "Ingest failed" notice exactly when the
    dashboard cannot be drawn again. *)
Theorem runIngest_notices (manifestPath : jsstring) (dryRun : bool)
    (w : World) :
  let w' := runIngest_ manifestPath dryRun w in
  let request :=
    spawn_request path_join (settings w) (ingest_args manifestPath dryRun) in
  let start := ingest_start_text dryRun in
  (entries w' = entries w /\ collectionInput w' = collectionInput w
   /\ yearInput w' = yearInput w /\ authorsInput w' = authorsInput w
   /\ settings w' = settings w /\ buttons w' = buttons w
   /\ closed w' = closed w /\ effects w' = effects w
   /\ ingests w' = ingests w ++ [(manifestPath, dryRun)])
  /\ (exists later, notices w' = notices w ++ start :: later
                    /\ (length later <= 2)%nat)
  /\ (forallb is_data (spawn request) = true ->
      notices w' = notices w ++ [start])
  /\ (forall data code rest,
        forallb is_data data = true ->
        spawn request = data ++ Close code :: rest ->
        code <> Some 0%Z ->
        notices w'
        = notices w
          ++ [start;
              lit "Ingest failed: Error: "
              ++ or_else (Str.trim (stderr_of data))
                   (lit "Process exited with code " ++ code_text code)])
  /\ (forall data rest e,
        forallb is_data data = true ->
        spawn request = data ++ Close (Some 0%Z) :: rest ->
        parse_sources (stdout_of data) = inl e ->
        notices w' = notices w ++ [start; lit "Ingest failed: " ++ e])
  /\ (forall data rest counts,
        forallb is_data data = true ->
        spawn request = data ++ Close (Some 0%Z) :: rest ->
        parse_sources (stdout_of data) = inr counts ->
        dryRun = true ->
        let complete :=
          lit "Dry-run complete " ++ [8212] ++ lit " no files published" in
        let shown :=
          with_notices (notices w ++ [start; complete])
            (with_ingests (ingests w ++ [(manifestPath, dryRun)]) w) in
        notices w'
        = notices w ++ [start; complete]
          ++ match render_error shown with
             | Some e => [lit "Ingest failed: " ++ e]
             | None => []
             end).
Proof.
  cbv zeta.
  destruct (runIngest_frame path_join spawn parse_sources render_error
              manifestPath dryRun w) as (later & Heq & Hlen & Hp).
  split; [by rewrite Heq|]. split; [rewrite Heq; by exists later|].
  split; [|split; [|split]].
  - intros Hdata.
    assert (later = []) as ->; [|by rewrite Heq].
    apply Hp. unfold runPipelineCmd. cbv zeta. by apply on_event_pending.
  - intros data code rest Hd Hev Hcode. clear Heq Hlen Hp later.
    unfold runIngest. cbv zeta. cbn [settings notice with_notices with_ingests].
    rewrite (runPipelineCmd_run _ _ _ _ data (Close code) rest Hd eq_refl Hev).
    cbn [on_event stdout stderr promise].
    rewrite bool_decide_eq_false_2 by done.
    cbn [settle promise stdout stderr ingest_outcome].
    rewrite error_text_exit. unfold ingest_failed, notice.
    cbn [notices with_notices with_ingests ingests]. rewrite <- !app_assoc.
    change (lit "Ingest failed: " ++ lit "Error: " ++ ?x)
      with (lit "Ingest failed: Error: " ++ x). done.
  - intros data rest e Hd Hev Hparse. clear Heq Hlen Hp later.
    unfold runIngest. cbv zeta. cbn [settings notice with_notices with_ingests].
    rewrite (runPipelineCmd_run _ _ _ _ data (Close (Some 0%Z)) rest Hd
               eq_refl Hev).
    cbn [on_event stdout stderr promise].
    rewrite bool_decide_eq_true_2 by done.
    cbn [settle promise stdout stderr ingest_outcome]. rewrite Hparse.
    unfold ingest_failed, notice.
    cbn [notices with_notices with_ingests ingests].
    by rewrite <- !app_assoc.
  - intros data rest counts Hd Hev Hparse ->. clear Heq Hlen Hp later.
    unfold runIngest. cbv zeta. cbn [settings notice with_notices with_ingests].
    rewrite (runPipelineCmd_run _ _ _ _ data (Close (Some 0%Z)) rest Hd
               eq_refl Hev).
    cbn [on_event stdout stderr promise].
    rewrite bool_decide_eq_true_2 by done.
    cbn [settle promise stdout stderr ingest_outcome]. rewrite Hparse.
    unfold ingest_failed, notice.
    cbn [notices with_notices with_ingests ingests].
    rewrite <- !app_assoc. cbn [app].
    destruct (render_error _) as [e|];
      cbn [notices with_notices with_ingests ingests].
    + by rewrite <- !app_assoc.
    + done.
Qed.

End IngestNotices.
